(** * Cyberbrain [frame.py]: the event-sourced frame state

    A shallow embedding of [src/cyberbrain/frame.py] and the properties of
    its event log, snapshot index, value reconstruction and accumulated view.

    Python objects that the code shares or mutates in place (events,
    [Snapshot]s and their [events_pointer] dictionaries) live in an explicit
    store; methods of [Frame] are computations in a state-and-exception
    monad over that store and the frame's own attributes.  An exception
    keeps the state reached when it was raised, as in Python. *)

From stdpp Require Import base gmap list strings.
From Stdlib Require Import ZArith Lia.

(** ** Python exceptions *)

Inductive PyExc :=
| BaseException
| Exception
| AssertionError
| AttributeError
| LookupError
| IndexError
| KeyError
| SystemError.

#[global] Instance PyExc_eq_dec : EqDecision PyExc.
Proof. solve_decision. Defined.

(** The direct base class of each built-in exception class. *)
Definition exc_base (e : PyExc) : option PyExc :=
  match e with
  | BaseException => None
  | Exception => Some BaseException
  | IndexError | KeyError => Some LookupError
  | AssertionError | AttributeError | LookupError | SystemError => Some Exception
  end.

Fixpoint issubclass_upto (n : nat) (e c : PyExc) : bool :=
  if decide (e = c) then true
  else match n with
       | O => false
       | S n' => match exc_base e with
                 | Some b => issubclass_upto n' b c
                 | None => false
                 end
       end.

(** [issubclass e c]: an [except c] clause catches [e]. *)
Definition issubclass (e c : PyExc) : bool := issubclass_upto 3 e c.

Inductive Res (A : Type) :=
| Ok (a : A)
| Raise (e : PyExc).
Arguments Ok {A} a.
Arguments Raise {A} e.

(** ** Insertion-ordered dictionaries with string keys

    [raw_events] is iterated by [accumulated_events], so its key order is
    part of the behaviour: a [dict] keeps keys in insertion order, and
    assigning to an existing key keeps its position. *)

Fixpoint dict_get {V : Type} (d : list (string * V)) (k : string) : option V :=
  match d with
  | [] => None
  | (k', v) :: d' => if decide (k' = k) then Some v else dict_get d' k
  end.

Fixpoint dict_set {V : Type} (d : list (string * V)) (k : string) (v : V)
  : list (string * V) :=
  match d with
  | [] => [(k, v)]
  | (k', v') :: d' =>
      if decide (k' = k) then (k, v) :: d' else (k', v') :: dict_set d' k v
  end.

(** ** Events ([basis.py]) *)

Definition loc := nat.

(** Modelled from the spec: [basis.py] is not among the sources.  A source
    reference is a pair of an identifier and the index of the event that
    produced the value read (spec, data model: Mutation [sources]). *)
Definition Sources := gset (string * nat).

(** Modelled from the spec: [basis.EventType], the kind of a raw change
    reported by the value stack.  [log_events] tests for these two members. *)
Inductive EventType :=
| ETMutation
| ETDeletion.

(** ** The value-diff codec

    The codec ([deepdiff]) is an external collaborator: [diff old new] is
    [Delta(diff=DeepDiff(old, new))] and [apply_delta v d] is [v + d], which
    builds a new value and leaves [v] as it was. *)
Class Codec := {
  Value : Type;
  Delta : Type;
  apply_delta : Value -> Delta -> Value;
  diff : Value -> Value -> Delta
}.

Section Engine.

Context `{Codec}.

(** Modelled from the spec: the event classes of [basis.py], with the fields
    the constructor calls of [frame.py] pass.  A [Mutation] has an optional
    [value] attribute, unset in the raw log and assigned by
    [accumulated_events] on its copies. *)
Inductive Event :=
| InitialValue (target : string) (value : Value) (lineno : Z) (filename : string)
| Creation (target : string) (value : Value) (sources : Sources)
    (filename : string) (lineno : Z)
| Mutation (target : string) (filename : string) (lineno : Z) (delta : Delta)
    (sources : Sources) (value : option Value)
| Deletion (target : string) (filename : string) (lineno : Z).

Definition event_target (e : Event) : string :=
  match e with
  | InitialValue t _ _ _ | Creation t _ _ _ _ | Mutation t _ _ _ _ _
  | Deletion t _ _ => t
  end.

(** [e.value]; [None] stands for the AttributeError of a missing attribute. *)
Definition event_value (e : Event) : option Value :=
  match e with
  | InitialValue _ v _ _ | Creation _ v _ _ _ => Some v
  | Mutation _ _ _ _ _ v => v
  | Deletion _ _ _ => None
  end.

Definition event_delta (e : Event) : option Delta :=
  match e with
  | Mutation _ _ _ d _ _ => Some d
  | _ => None
  end.

(** [event.value = v] on a [Mutation]. *)
Definition set_event_value (e : Event) (v : Value) : Event :=
  match e with
  | Mutation t f l d s _ => Mutation t f l d s (Some v)
  | _ => e
  end.

Definition is_InitialValue (e : Event) : bool :=
  match e with InitialValue _ _ _ _ => true | _ => false end.
Definition is_Creation (e : Event) : bool :=
  match e with Creation _ _ _ _ _ => true | _ => false end.
Definition is_Mutation (e : Event) : bool :=
  match e with Mutation _ _ _ _ _ _ => true | _ => false end.
Definition is_Deletion (e : Event) : bool :=
  match e with Deletion _ _ _ => true | _ => false end.

(** ** The store and the frame *)

Definition Location := (string * Z)%type.

(** [class Snapshot]: [events_pointer] refers to a dictionary object. *)
Record Snapshot := mkSnapshot {
  events_pointer : loc;
  location : option Location
}.

(** [Snapshot.__init__(events_pointer, location=None)] *)
Definition Snapshot__init__ (events_pointer : loc) : Snapshot :=
  mkSnapshot events_pointer None.

Inductive Obj :=
| OEvent (e : Event)
| ODefaultDict (d : gmap string Z)   (* defaultdict(lambda: _INITIAL_STATE) *)
| OSnapshot (s : Snapshot).

Definition _INITIAL_STATE : Z := (-1)%Z.

(** The attributes of a [Frame] that [frame.py] itself reads or writes.
    [raw_events] is the [_EventsDict]; its lists and [snapshots] hold
    references into the store. *)
Record Frame := mkFrame {
  filename : string;
  offset_to_lineno : gmap Z Z;
  raw_events : list (string * list loc);
  snapshots : list loc;
  _latest_snapshot : loc
}.

Record World := mkWorld {
  heap : list Obj;
  self : Frame
}.

Definition M (A : Type) : Type := World -> Res A * World.

Definition ret {A} (a : A) : M A := fun w => (Ok a, w).
Definition raise {A} (e : PyExc) : M A := fun w => (Raise e, w).
Definition bind {A B} (m : M A) (k : A -> M B) : M B :=
  fun w => match m w with
           | (Ok a, w') => k a w'
           | (Raise e, w') => (Raise e, w')
           end.

Notation "'let!' x ':=' m 'in' k" := (bind m (fun x => k))
  (at level 10, x name, m at level 100, k at level 200, only parsing).
Notation "'do!' m 'in' k" := (bind m (fun _ => k))
  (at level 10, m at level 100, k at level 200, only parsing).

Definition assert (b : bool) : M unit :=
  if b then ret tt else raise AssertionError.

Definition get_self : M Frame := fun w => (Ok (self w), w).
Definition put_self (f : Frame) : M unit := fun w => (Ok tt, mkWorld (heap w) f).

(** Object creation: the new object gets the next free address. *)
Definition alloc (o : Obj) : M loc :=
  fun w => (Ok (length (heap w)), mkWorld (heap w ++ [o]) (self w)).

(** A dangling reference cannot occur in Python; the model reports it. *)
Definition load (l : loc) : M Obj :=
  fun w => match heap w !! l with
           | Some o => (Ok o, w)
           | None => (Raise SystemError, w)
           end.

Definition store (l : loc) (o : Obj) : M unit :=
  fun w => (Ok tt, mkWorld (<[l := o]> (heap w)) (self w)).

(** Reading an attribute of an event object. *)
Definition load_event (l : loc) : M Event :=
  let! o := load l in
  match o with
  | OEvent e => ret e
  | _ => raise AttributeError
  end.

Definition load_snapshot (l : loc) : M Snapshot :=
  let! o := load l in
  match o with
  | OSnapshot s => ret s
  | _ => raise AttributeError
  end.

Definition load_dict (l : loc) : M (gmap string Z) :=
  let! o := load l in
  match o with
  | ODefaultDict d => ret d
  | _ => raise AttributeError
  end.

(** [isinstance(obj, cls)] for an event class, given as its recogniser. *)
Definition isinstance (l : loc) (cls : Event -> bool) : M bool :=
  let! o := load l in
  match o with
  | OEvent e => ret (cls e)
  | _ => ret false
  end.

Definition set_raw_events (f : Frame) (d : list (string * list loc)) : Frame :=
  mkFrame (filename f) (offset_to_lineno f) d (snapshots f) (_latest_snapshot f).

(** ** [class _EventsDict(defaultdict)] *)

(** [self[name]] on a [defaultdict(list)]: a missing key is first inserted
    with an empty list. *)
Definition _EventsDict__getitem__ (name : string) : M (list loc) :=
  let! f := get_self in
  match dict_get (raw_events f) name with
  | Some events => ret events
  | None =>
      do! put_self (set_raw_events f (dict_set (raw_events f) name [])) in
      ret []
  end.

Definition _EventsDict__contains__ (name : string) : M bool :=
  let! events := _EventsDict__getitem__ name in
  match last events with
  | None => ret false
  | Some l =>
      let! is_del := isinstance l is_Deletion in
      if is_del then ret false else ret true
  end.

(** ** [class Frame] *)

(** [Frame.__init__]: the seed snapshot owns an empty
    [defaultdict(lambda: _INITIAL_STATE)].  The value stack and the
    parent and children links play no part in the frame state. *)
Definition Frame__init__ (fname : string) (o2l : gmap Z Z) (h : list Obj) : World :=
  let d := length h in
  let s := S (length h) in
  mkWorld (h ++ [ODefaultDict ∅] ++ [OSnapshot (Snapshot__init__ d)])
          (mkFrame fname o2l [] [s] s).

Definition latest_snapshot : M loc :=
  let! f := get_self in ret (_latest_snapshot f).

Definition _knows (name : string) : M bool := _EventsDict__contains__ name.

Definition _add_new_event (event : loc) : M unit :=
  let! e := load_event event in
  let target := event_target e in
  do! assert (negb (String.eqb target EmptyString)) in
  let! events := _EventsDict__getitem__ target in
  let! is_iv := match events with
                | [] => ret false
                | _ => isinstance event is_InitialValue
                end in
  do! assert (negb is_iv) in
  let! events := _EventsDict__getitem__ target in
  let! f := get_self in
  do! put_self (set_raw_events f (dict_set (raw_events f) target (events ++ [event]))) in
  (* Creates a new snapshot by incrementing the target index. *)
  let! f := get_self in
  match last (snapshots f) with
  | None => raise IndexError
  | Some prev =>
      let! s := load_snapshot prev in
      let! d := load_dict (events_pointer s) in
      let! new_events_pointer := alloc (ODefaultDict d) in
      let! d' := load_dict new_events_pointer in
      let old := default _INITIAL_STATE (d' !! target) in
      do! store new_events_pointer (ODefaultDict (<[target := (old + 1)%Z]> d')) in
      let! new_snapshot := alloc (OSnapshot (Snapshot__init__ new_events_pointer)) in
      let! f := get_self in
      put_self (mkFrame (filename f) (offset_to_lineno f) (raw_events f)
                  (snapshots f ++ [new_snapshot]) new_snapshot)
  end.

(** The loop of [_latest_value_of] over [relevant_events[1:]]. *)
Fixpoint fold_mutations (value : Value) (events : list loc) : M Value :=
  match events with
  | [] => ret value
  | mutation :: rest =>
      let! o := load mutation in
      match o with
      | OEvent (Mutation _ _ _ delta _ _) =>
          fold_mutations (apply_delta value delta) rest
      | _ => raise AssertionError
      end
  end.

Definition _latest_value_of (name : string) : M Value :=
  let! known := _EventsDict__contains__ name in
  if negb known then raise AttributeError
  else
    let! relevant_events := _EventsDict__getitem__ name in
    match relevant_events with
    | [] => raise IndexError
    | first :: rest =>
        let! o := load first in
        match o with
        | OEvent (InitialValue _ value _ _) | OEvent (Creation _ value _ _ _) =>
            fold_mutations value rest
        | _ => raise AssertionError
        end
    end.

(** *** [accumulated_events] *)

(** [obj.value]: AttributeError when the object has no such attribute. *)
Definition getattr_value (l : loc) : M Value :=
  let! e := load_event l in
  match event_value e with
  | Some v => ret v
  | None => raise AttributeError
  end.

Definition getattr_delta (l : loc) : M Delta :=
  let! e := load_event l in
  match event_delta e with
  | Some d => ret d
  | None => raise AttributeError
  end.

(** [obj.value = v] *)
Definition setattr_value (l : loc) (v : Value) : M unit :=
  let! e := load_event l in
  store l (OEvent (set_event_value e v)).

(** [copy(obj)]: a new object with the same attributes. *)
Definition copy (l : loc) : M loc :=
  let! o := load l in alloc o.

(** [result[name]] on the local [defaultdict(list)]: the list found, and the
    dictionary after a missing key was inserted. *)
Definition result_getitem (result : list (string * list loc)) (name : string)
  : list loc * list (string * list loc) :=
  match dict_get result name with
  | Some l => (l, result)
  | None => ([], dict_set result name [])
  end.

(** [result[name].append(l)] *)
Definition result_append (result : list (string * list loc)) (name : string)
    (l : loc) : list (string * list loc) :=
  let '(lst, result) := result_getitem result name in
  dict_set result name (lst ++ [l]).

(** The inner loop, [for raw_event in raw_events]. *)
Fixpoint accumulate_events (name : string) (raw_events : list loc)
    (result : list (string * list loc)) : M (list (string * list loc)) :=
  match raw_events with
  | [] => ret result
  | raw_event :: rest =>
      let! is_mutation := isinstance raw_event is_Mutation in
      if negb is_mutation then
        accumulate_events name rest (result_append result name raw_event)
      else
        let! event := copy raw_event in
        let '(lst, result) := result_getitem result name in
        match last lst with
        | None => raise IndexError
        | Some prev =>
            let! prev_value := getattr_value prev in
            let! delta := getattr_delta raw_event in
            do! setattr_value event (apply_delta prev_value delta) in
            accumulate_events name rest (result_append result name event)
        end
  end.

(** The outer loop, [for name, raw_events in self.raw_events.items()]. *)
Fixpoint accumulate_items (items : list (string * list loc))
    (result : list (string * list loc)) : M (list (string * list loc)) :=
  match items with
  | [] => ret result
  | (name, raw_events) :: rest =>
      let! result := accumulate_events name raw_events result in
      accumulate_items rest result
  end.

Definition accumulated_events : M (list (string * list loc)) :=
  let! f := get_self in
  accumulate_items (raw_events f) [].

(** *** [get_tracing_result]

    The body of the method is its docstring alone: whatever the frame holds,
    the call returns [None]. *)
Definition get_tracing_result : M (option (list (string * list string))) :=
  ret None.

(** *** Logging *)

(** Modelled from the spec: what [value_stack.emit_event_and_update_stack]
    reports for an instruction that changed a value. *)
Record EventInfo := mkEventInfo {
  ei_type : EventType;
  ei_target : string;
  ei_sources : Sources
}.

(** [self.offset_to_lineno[instr.offset]] *)
Definition lineno_of (offset : Z) : M Z :=
  let! f := get_self in
  match offset_to_lineno f !! offset with
  | Some n => ret n
  | None => raise KeyError
  end.

(** [log_events(frame, instr, jumped)].  The collaborators are taken by their
    results: [event_info] is what the value stack emitted ([None]: nothing
    changed), [offset] is [instr.offset], and [live_value] is the value of the
    target in the traced frame. *)
Definition log_events (event_info : option EventInfo) (offset : Z)
    (live_value : Value) : M unit :=
  match event_info with
  | None => ret tt
  | Some event_info =>
      let target := ei_target event_info in
      let! event :=
        match ei_type event_info with
        | ETMutation =>
            let! known := _knows target in
            if known then
              let! f := get_self in
              let! lineno := lineno_of offset in
              let! old_value := _latest_value_of target in
              alloc (OEvent (Mutation target (filename f) lineno
                               (diff old_value live_value)
                               (ei_sources event_info) None))
            else
              let! f := get_self in
              let! lineno := lineno_of offset in
              alloc (OEvent (Creation target live_value (ei_sources event_info)
                               (filename f) lineno))
        | ETDeletion =>
            let! f := get_self in
            let! lineno := lineno_of offset in
            alloc (OEvent (Deletion target (filename f) lineno))
        end in
      _add_new_event event
  end.

(** [log_initial_value_events(frame, instr)].  [target] is [instr.argval];
    [ignored] says that the name is bound to a Tracer or is a builtin;
    [name_exist] is [utils.name_exist_in_frame(target, frame)]. *)
Definition log_initial_value_events (target : string) (ignored name_exist : bool)
    (offset : Z) (live_value : Value) : M unit :=
  if ignored then ret tt
  else
    let! unrecorded :=
      if name_exist then (let! known := _knows target in ret (negb known))
      else ret false in
    if unrecorded then
      let! lineno := lineno_of offset in
      let! f := get_self in
      let! event := alloc (OEvent (InitialValue target live_value lineno (filename f))) in
      _add_new_event event
    else ret tt.

(** ** Observations of a state *)

(** The recorded events of an identifier, as [raw_events[name]] reads them. *)
Definition timeline (w : World) (name : string) : list loc :=
  default [] (dict_get (raw_events (self w)) name).

Definition event_at (h : list Obj) (l : loc) : option Event :=
  match h !! l with
  | Some (OEvent e) => Some e
  | _ => None
  end.

(** The pointer mapping of the Snapshot object at [s]. *)
Definition pointers_at (h : list Obj) (s : loc) : option (gmap string Z) :=
  match h !! s with
  | Some (OSnapshot sn) =>
      match h !! events_pointer sn with
      | Some (ODefaultDict d) => Some d
      | _ => None
      end
  | _ => None
  end.

(** [events_pointer[name]] on a [defaultdict(lambda: _INITIAL_STATE)]. *)
Definition pointer (d : gmap string Z) (name : string) : Z :=
  default _INITIAL_STATE (d !! name).

(** The number of events in the log. *)
Definition total_events (w : World) : nat :=
  sum_list (map (fun item => length (snd item)) (raw_events (self w))).

(** The state after [raw_events[name]] was read: a missing key is now bound
    to an empty list. *)
Definition touch (name : string) (w : World) : World :=
  match dict_get (raw_events (self w)) name with
  | Some _ => w
  | None =>
      mkWorld (heap w)
        (set_raw_events (self w) (dict_set (raw_events (self w)) name []))
  end.

(** The state after the event object [event], for [target], was appended. *)
Definition appended (event : loc) (target : string) (w : World) : World :=
  let d := default ∅ (pointers_at (heap w) (_latest_snapshot (self w))) in
  let p := length (heap w) in
  mkWorld
    (heap w ++ [ODefaultDict (<[target := (pointer d target + 1)%Z]> d);
                OSnapshot (Snapshot__init__ p)])
    (mkFrame (filename (self w)) (offset_to_lineno (self w))
       (dict_set (raw_events (self w)) target (timeline w target ++ [event]))
       (snapshots (self w) ++ [S p]) (S p)).

(** What [name in raw_events] answers. *)
Definition known (w : World) (name : string) : bool :=
  match last (timeline w name) with
  | None => false
  | Some l =>
      match event_at (heap w) l with
      | Some e => negb (is_Deletion e)
      | None => true
      end
  end.

(** ** The frame invariant *)

Record frame_inv (w : World) : Prop := mk_frame_inv {
  inv_keys : NoDup (map fst (raw_events (self w)));
  inv_events : forall name l,
    l ∈ timeline w name -> is_Some (event_at (heap w) l);
  inv_snapshots : forall s,
    s ∈ snapshots (self w) -> is_Some (pointers_at (heap w) s);
  inv_latest : last (snapshots (self w)) = Some (_latest_snapshot (self w));
  inv_seed : exists s d,
    snapshots (self w) !! 0 = Some s /\ pointers_at (heap w) s = Some d /\
    forall name, pointer d name = (-1)%Z;
  inv_step : forall i s s' d d',
    snapshots (self w) !! i = Some s ->
    snapshots (self w) !! S i = Some s' ->
    pointers_at (heap w) s = Some d ->
    pointers_at (heap w) s' = Some d' ->
    exists name,
      pointer d' name = (pointer d name + 1)%Z /\
      forall other, other <> name -> pointer d' other = pointer d other;
  inv_count : length (snapshots (self w)) = S (total_events w);
  inv_pointer : forall d name,
    pointers_at (heap w) (_latest_snapshot (self w)) = Some d ->
    pointer d name = (Z.of_nat (length (timeline w name)) - 1)%Z
}.

(** ** Reachable states

    A frame starts from [Frame.__init__] in any store and then only changes
    through its methods; in between, the surrounding program may create
    objects of its own. *)
Inductive Call :=
| call_add_new_event (event : loc)
| call_knows (name : string)
| call_latest_value_of (name : string)
| call_accumulated_events
| call_get_tracing_result
| call_latest_snapshot
| call_log_events (event_info : option EventInfo) (offset : Z) (live_value : Value)
| call_log_initial_value_events (target : string) (ignored name_exist : bool)
    (offset : Z) (live_value : Value)
| call_new_object (o : Obj).

Definition exec (c : Call) (w : World) : World :=
  match c with
  | call_add_new_event event => snd (_add_new_event event w)
  | call_knows name => snd (_knows name w)
  | call_latest_value_of name => snd (_latest_value_of name w)
  | call_accumulated_events => snd (accumulated_events w)
  | call_get_tracing_result => snd (get_tracing_result w)
  | call_latest_snapshot => snd (latest_snapshot w)
  | call_log_events event_info offset live_value =>
      snd (log_events event_info offset live_value w)
  | call_log_initial_value_events target ignored name_exist offset live_value =>
      snd (log_initial_value_events target ignored name_exist offset live_value w)
  | call_new_object o => snd (alloc o w)
  end.

Inductive reachable : World -> Prop :=
| reachable_init fname o2l h : reachable (Frame__init__ fname o2l h)
| reachable_call w c : reachable w -> reachable (exec c w).

(** ** The accumulated view, on events as values

    This is the view as the documentation of [accumulated_events] words it:
    every event is kept, and a Mutation carries the value of the entry before
    it with its own delta applied. *)

Fixpoint accumulated_timeline (done : list Event) (raw : list Event)
  : Res (list Event) :=
  match raw with
  | [] => Ok done
  | Mutation t f l d s v :: rest =>
      match last done with
      | None => Raise IndexError
      | Some prev =>
          match event_value prev with
          | None => Raise AttributeError
          | Some pv =>
              accumulated_timeline
                (done ++ [Mutation t f l d s (Some (apply_delta pv d))]) rest
          end
      end
  | e :: rest => accumulated_timeline (done ++ [e]) rest
  end.

Fixpoint accumulated_view (log : list (string * list Event))
  : Res (list (string * list Event)) :=
  match log with
  | [] => Ok []
  | (name, raw) :: rest =>
      match accumulated_timeline [] raw with
      | Raise e => Raise e
      | Ok acc =>
          match accumulated_view rest with
          | Raise e => Raise e
          | Ok view => Ok (if raw is [] then view else (name, acc) :: view)
          end
      end
  end.

(** The events behind a list, and behind a dictionary, of references. *)
Definition events_at (h : list Obj) (ls : list loc) : list Event :=
  omap (event_at h) ls.

Definition events_of (h : list Obj) (d : list (string * list loc))
  : list (string * list Event) :=
  map (fun item => (fst item, events_at h (snd item))) d.

Definition result_view (h : list Obj) (r : Res (list (string * list loc)))
  : Res (list (string * list Event)) :=
  match r with
  | Ok d => Ok (events_of h d)
  | Raise e => Raise e
  end.

(** How an entry [l'] of the accumulated view relates to the raw event [l]
    of the store [h] it stands for: a Mutation is represented by an object
    that did not exist in [h]; any other event by itself. *)
Definition copy_or_same (h : list Obj) (l l' : loc) : Prop :=
  match event_at h l with
  | Some e => if is_Mutation e then length h <= l' else l' = l
  | None => False
  end.

(** What the outer loop guarantees for an entry [(name, out)] of the result:
    [out] stands, event by event, for the raw events of [name]. *)
Definition entry_accumulated (h h' : list Obj) (items : list (string * list loc))
    (item : string * list loc) : Prop :=
  exists raw,
    (fst item, raw) ∈ items /\
    accumulated_timeline [] (events_at h raw) = Ok (events_at h' (snd item)) /\
    Forall2 (copy_or_same h) raw (snd item).

(** The log only grows: every timeline of [w] is the beginning of the
    timeline of the same identifier in [w']. *)
Definition log_grows (w w' : World) : Prop :=
  forall name, timeline w name `prefix_of` timeline w' name.

(** A computation keeps the frame invariant and at most extends the log,
    whatever its outcome. *)
Definition preserves {A} (m : M A) : Prop :=
  forall w, frame_inv w -> frame_inv (snd (m w)) /\ log_grows w (snd (m w)).

(** [w'] is [w] with one more event, the new object [e], at the end of the
    timeline of its target; the other timelines are as they were. *)
Definition appends (w w' : World) (e : Event) : Prop :=
  exists l,
    heap w !! l = None /\
    event_at (heap w') l = Some e /\
    timeline w' (event_target e) = timeline w (event_target e) ++ [l] /\
    forall name, name <> event_target e -> timeline w' name = timeline w name.

(** ** Further observations and state changes *)

(** What [_latest_value_of] computes, on the events of a timeline as
    values: the membership test on the last event, the type test on the
    first, then the fold over the rest. *)
Definition latest_value (es : list Event) : Res Value :=
  match last es with
  | None => Raise AttributeError
  | Some e =>
      if is_Deletion e then Raise AttributeError
      else match es with
           | InitialValue _ v _ _ :: rest | Creation _ v _ _ _ :: rest =>
               if forallb is_Mutation rest
               then Ok (fold_left apply_delta (omap event_delta rest) v)
               else Raise AssertionError
           | _ => Raise AssertionError
           end
  end.

(** Building the event [e] and passing it to [_add_new_event], as the two
    logging methods do. *)
Definition add_new (e : Event) : M unit :=
  let! event := alloc (OEvent e) in _add_new_event event.

(** Every Mutation of [es] comes after an event that carries a value;
    [has_value] says whether the event before [es] does. *)
Fixpoint mutations_have_base (has_value : bool) (es : list Event) : bool :=
  match es with
  | [] => true
  | Mutation _ _ _ _ _ _ :: rest => has_value && mutations_have_base true rest
  | Deletion _ _ _ :: rest => mutations_have_base false rest
  | _ :: rest => mutations_have_base true rest
  end.

(** The changes of state the methods are made of: a read of
    [raw_events[name]], new objects in the store, and the append of an event
    object that satisfies [C]. *)
Inductive step (C : World -> Event -> Prop) : World -> World -> Prop :=
| step_touch name w : step C w (touch name w)
| step_grow w ext : step C w (mkWorld (heap w ++ ext) (self w))
| step_append w event e :
    event_at (heap w) event = Some e -> C w e ->
    step C w (appended event (event_target e) w).

Definition evolves (C : World -> Event -> Prop) {A} (m : M A) : Prop :=
  forall w, frame_inv w -> rtc (step C) w (snd (m w)).

(** The events the assertions of [_add_new_event] let through. *)
Definition accepted (w : World) (e : Event) : Prop :=
  event_target e <> EmptyString /\
  (is_InitialValue e = true -> timeline w (event_target e) = []).

(** The events [log_events] and [log_initial_value_events] append: an
    InitialValue for an identifier without events, a Creation for an
    identifier that is not known, a Mutation for one that is, a Deletion
    at any time. *)
Definition logged_event (w : World) (e : Event) : Prop :=
  event_target e <> EmptyString /\
  match e with
  | InitialValue t _ _ _ => timeline w t = []
  | Creation t _ _ _ _ => known w t = false
  | Mutation t _ _ _ _ _ => known w t = true
  | Deletion _ _ _ => True
  end.

(** The states reached when events are only appended by the two logging
    methods, never by a direct call of [_add_new_event]. *)
Definition is_append_call (c : Call) : bool :=
  match c with
  | call_add_new_event _ => true
  | _ => false
  end.

Inductive logged : World -> Prop :=
| logged_init fname o2l h : logged (Frame__init__ fname o2l h)
| logged_call w c : logged w -> is_append_call c = false -> logged (exec c w).

End Engine.

(** * A concrete codec and the swap scenario *)

(** A codec on strings: a delta keeps the value or replaces it. *)
Definition StringCodec : Codec := {|
  Value := string;
  Delta := option string;
  apply_delta v d := default v d;
  diff old new := if decide (old = new) then None else Some new
|}.

Section Swap.

#[local] Existing Instance StringCodec.

(** The three lines of [swap.py]:
<<
    x = "foo"
    y = "bar"
    x, y = y, x
>>
    and the offsets of its four store instructions. *)
Definition swap_lines : gmap Z Z := {[ 2 := 1; 6 := 2; 14 := 3; 16 := 3 ]}%Z.

Definition fresh_frame : World := Frame__init__ "swap.py" swap_lines [].

Definition swap1 : World :=
  exec (call_log_events (Some (mkEventInfo ETMutation "x" ∅)) 2 "foo") fresh_frame.
Definition swap2 : World :=
  exec (call_log_events (Some (mkEventInfo ETMutation "y" ∅)) 6 "bar") swap1.
(** The sources of the two stores of the swap are bound to the first events
    of [y] and of [x]. *)
Definition swap3 : World :=
  exec (call_log_events (Some (mkEventInfo ETMutation "x" {[ ("y", 0) ]})) 14 "bar")
    swap2.
Definition swap_frame : World :=
  exec (call_log_events (Some (mkEventInfo ETMutation "y" {[ ("x", 0) ]})) 16 "foo")
    swap3.

(** The four events of the scenario. *)
Definition creation_x : Event := Creation "x" "foo" ∅ "swap.py" 1.
Definition creation_y : Event := Creation "y" "bar" ∅ "swap.py" 2.
Definition mutation_x : Event :=
  Mutation "x" "swap.py" 3 (Some "bar") {[ ("y", 0) ]} None.
Definition mutation_y : Event :=
  Mutation "y" "swap.py" 3 (Some "foo") {[ ("x", 0) ]} None.

(** The swap scenario, after the environment built an InitialValue for [x]. *)
Definition swap_with_initial_value : World :=
  exec (call_new_object (OEvent (InitialValue "x" "baz" 4 "swap.py"))) swap_frame.

(** A frame in which [x] was found with the value ["foo"] before tracing. *)
Definition with_initial_x : World :=
  exec (call_log_initial_value_events "x" false true 2 "foo") fresh_frame.

(** Delete, then create again: [x = "foo"], [del x], [x = "bar"]. *)
Definition deleted : World :=
  exec (call_log_events (Some (mkEventInfo ETDeletion "x" ∅)) 6 "foo") swap1.
Definition recreated : World :=
  exec (call_log_events (Some (mkEventInfo ETMutation "x" ∅)) 14 "bar") deleted.

End Swap.

(** * Properties *)

Section Properties.

Context `{Codec}.

(** ** Dictionaries *)

Lemma dict_get_set_eq {V} (d : list (string * V)) k v :
  dict_get (dict_set d k v) k = Some v.
Proof.
  induction d as [|[k' v'] d IH]; simpl.
  - by rewrite decide_True.
  - destruct (decide (k' = k)) as [->|Hne]; simpl.
    + by rewrite decide_True.
    + by rewrite decide_False.
Qed.

Lemma dict_get_set_ne {V} (d : list (string * V)) k k' v :
  k <> k' -> dict_get (dict_set d k v) k' = dict_get d k'.
Proof.
  intros Hne. induction d as [|[k0 v0] d IH]; simpl.
  - by rewrite decide_False.
  - destruct (decide (k0 = k)) as [->|Hne0]; simpl.
    + by rewrite !decide_False.
    + by rewrite IH.
Qed.

Lemma dict_set_set {V} (d : list (string * V)) k v v' :
  dict_set (dict_set d k v) k v' = dict_set d k v'.
Proof.
  induction d as [|[k0 v0] d IH]; simpl.
  - by rewrite decide_True.
  - destruct (decide (k0 = k)) as [->|Hne]; simpl.
    + by rewrite decide_True.
    + by rewrite decide_False, IH.
Qed.

Lemma dict_get_None_keys {V} (d : list (string * V)) k :
  dict_get d k = None <-> k ∉ map fst d.
Proof.
  induction d as [|[k0 v0] d IH]; simpl.
  - split; [intros _; apply not_elem_of_nil | done].
  - rewrite not_elem_of_cons. destruct (decide (k0 = k)) as [->|Hne].
    + split; [done | intros [? _]; done].
    + rewrite IH. split; [intros ?; split; congruence | tauto].
Qed.

Lemma dict_set_keys {V} (d : list (string * V)) k v :
  map fst (dict_set d k v) =
  if dict_get d k is Some _ then map fst d else map fst d ++ [k].
Proof.
  induction d as [|[k0 v0] d IH]; simpl; [done|].
  destruct (decide (k0 = k)) as [->|Hne]; simpl; [done|].
  rewrite IH. by destruct (dict_get d k).
Qed.

Lemma dict_set_NoDup {V} (d : list (string * V)) k v :
  NoDup (map fst d) -> NoDup (map fst (dict_set d k v)).
Proof.
  intros Hnd. rewrite dict_set_keys.
  destruct (dict_get d k) eqn:Hget; [done|].
  apply NoDup_app. split; [done|]. split; [|apply NoDup_singleton].
  intros x Hx ->%list_elem_of_singleton.
  by apply dict_get_None_keys in Hget.
Qed.

Lemma dict_get_elem_of {V} (d : list (string * V)) k v :
  NoDup (map fst d) -> (k, v) ∈ d -> dict_get d k = Some v.
Proof.
  induction d as [|[k0 v0] d IH]; simpl; intros Hnd Hin.
  - by apply elem_of_nil in Hin.
  - apply NoDup_cons in Hnd as [Hk0 Hnd].
    apply elem_of_cons in Hin as [Heq|Hin].
    + inversion Heq; subst. by rewrite decide_True.
    + destruct (decide (k0 = k)) as [->|Hne]; [|by apply IH].
      exfalso. apply Hk0. apply list_elem_of_fmap. by exists (k, v).
Qed.

Lemma sum_lengths_dict_set (d : list (string * list loc)) k v :
  sum_list (map (fun item => length (snd item)) (dict_set d k v)) + 
    length (default [] (dict_get d k)) =
  sum_list (map (fun item => length (snd item)) d) + length v.
Proof.
  induction d as [|[k0 v0] d IH]; simpl; [lia|].
  destruct (decide (k0 = k)) as [->|Hne]; simpl; lia.
Qed.

(** ** Reading the event dictionary *)

Lemma touch_heap name w : heap (touch name w) = heap w.
Proof. unfold touch. by destruct (dict_get _ _). Qed.

Lemma touch_snapshots name w : snapshots (self (touch name w)) = snapshots (self w).
Proof. unfold touch. by destruct (dict_get _ _). Qed.

Lemma touch_latest name w :
  _latest_snapshot (self (touch name w)) = _latest_snapshot (self w).
Proof. unfold touch. by destruct (dict_get _ _). Qed.

Lemma touch_filename name w : filename (self (touch name w)) = filename (self w).
Proof. unfold touch. by destruct (dict_get _ _). Qed.

Lemma touch_offset_to_lineno name w :
  offset_to_lineno (self (touch name w)) = offset_to_lineno (self w).
Proof. unfold touch. by destruct (dict_get _ _). Qed.

Lemma touch_timeline name w n : timeline (touch name w) n = timeline w n.
Proof.
  unfold touch, timeline. destruct (dict_get _ name) eqn:Hget; [done|]. simpl.
  destruct (decide (name = n)) as [->|Hne].
  - by rewrite dict_get_set_eq, Hget.
  - by rewrite dict_get_set_ne.
Qed.

Lemma touch_get name w :
  dict_get (raw_events (self (touch name w))) name = Some (timeline w name).
Proof.
  unfold touch, timeline.
  destruct (dict_get (raw_events (self w)) name) eqn:Hget; simpl.
  - by rewrite Hget.
  - by rewrite dict_get_set_eq.
Qed.

Lemma touch_idem name w : touch name (touch name w) = touch name w.
Proof.
  pose proof (touch_get name w) as Hget. unfold touch in *.
  destruct (dict_get (raw_events (self w)) name) eqn:E; simpl in *.
  - by rewrite E.
  - by rewrite Hget.
Qed.

Lemma touch_total_events name w : total_events (touch name w) = total_events w.
Proof.
  unfold touch, total_events. destruct (dict_get _ name) eqn:Hget; [done|]. simpl.
  pose proof (sum_lengths_dict_set (raw_events (self w)) name []) as Hsum.
  rewrite Hget in Hsum. simpl in Hsum. lia.
Qed.

Lemma touch_known name w n : known (touch name w) n = known w n.
Proof. unfold known. by rewrite touch_timeline, touch_heap. Qed.

Lemma getitem_run name w :
  _EventsDict__getitem__ name w = (Ok (timeline w name), touch name w).
Proof.
  unfold _EventsDict__getitem__, bind, get_self, put_self, ret, timeline, touch.
  by destruct (dict_get _ _).
Qed.

Lemma isinstance_run l cls w o :
  heap w !! l = Some o ->
  isinstance l cls w =
  (Ok (if o is OEvent e then cls e else false), w).
Proof.
  intros Hl. unfold isinstance, bind, load, ret. rewrite Hl. by destruct o.
Qed.

Lemma load_event_run l w e :
  event_at (heap w) l = Some e -> load_event l w = (Ok e, w).
Proof.
  unfold event_at, load_event, bind, load, ret.
  destruct (heap w !! l) as [[]|]; congruence.
Qed.

Lemma load_run l w e :
  event_at (heap w) l = Some e -> load l w = (Ok (OEvent e), w).
Proof.
  unfold event_at, load. destruct (heap w !! l) as [[]|]; congruence.
Qed.

Lemma event_at_lookup h l e : event_at h l = Some e <-> h !! l = Some (OEvent e).
Proof. unfold event_at. destruct (h !! l) as [[]|]; split; congruence. Qed.

Lemma contains_run name w :
  (forall l, last (timeline w name) = Some l -> is_Some (heap w !! l)) ->
  _EventsDict__contains__ name w = (Ok (known w name), touch name w).
Proof.
  intros Hlast. unfold _EventsDict__contains__, bind. rewrite getitem_run.
  unfold known. destruct (last (timeline w name)) as [l|] eqn:Hl; [|done].
  destruct (Hlast l eq_refl) as [o Ho].
  rewrite (isinstance_run l _ _ o) by (by rewrite touch_heap).
  unfold event_at. rewrite Ho. destruct o as [e| |]; try done.
  by destruct (is_Deletion e).
Qed.

(** ** Appending an event *)

Lemma touch_dict_set name w evs :
  dict_set (raw_events (self (touch name w))) name evs =
  dict_set (raw_events (self w)) name evs.
Proof.
  unfold touch. destruct (dict_get (raw_events (self w)) name); [done|].
  simpl. apply dict_set_set.
Qed.

Lemma touch_nonempty name w : timeline w name <> [] -> touch name w = w.
Proof.
  unfold timeline, touch. by destruct (dict_get (raw_events (self w)) name).
Qed.

Lemma pointers_at_lookup h s d :
  pointers_at h s = Some d <->
  exists sn, h !! s = Some (OSnapshot sn) /\ h !! events_pointer sn = Some (ODefaultDict d).
Proof.
  unfold pointers_at. split.
  - destruct (h !! s) as [[| |sn]|] eqn:Hs; try done.
    destruct (h !! events_pointer sn) as [[|d0|]|] eqn:Hd; try done.
    intros [= <-]. eauto.
  - by intros (sn & -> & ->).
Qed.

Ltac unfold_monad :=
  unfold load_snapshot, load_dict, load_event, assert;
  unfold bind, ret, raise, get_self, put_self, alloc, store, load.

Ltac reduce_state :=
  cbn [heap self snapshots raw_events filename offset_to_lineno
       _latest_snapshot set_raw_events fst snd negb andb].

(** The outcome of [_add_new_event] on a state whose latest snapshot is in
    place: it raises before any write, or performs the whole append. *)
Lemma add_new_event_run event e w d :
  event_at (heap w) event = Some e ->
  last (snapshots (self w)) = Some (_latest_snapshot (self w)) ->
  pointers_at (heap w) (_latest_snapshot (self w)) = Some d ->
  _add_new_event event w =
  if bool_decide (event_target e = EmptyString) then (Raise AssertionError, w)
  else if bool_decide (timeline w (event_target e) <> []) && is_InitialValue e
       then (Raise AssertionError, w)
       else (Ok tt, appended event (event_target e) w).
Proof.
  intros He Hlast Hd. unfold _add_new_event, bind at 1.
  rewrite (load_event_run _ _ _ He).
  unfold bind at 1, assert.
  case_bool_decide as Htarget.
  { rewrite Htarget. done. }
  replace (String.eqb (event_target e) EmptyString) with false
    by (symmetry; by apply String.eqb_neq).
  cbn [negb ret]. unfold bind at 1. rewrite getitem_run. unfold bind at 1.
  assert (is_iv_ok :
    (bool_decide (timeline w (event_target e) <> []) && is_InitialValue e) = false ->
    match timeline w (event_target e) with
    | [] => ret false
    | _ :: _ => isinstance event is_InitialValue
    end (touch (event_target e) w) = (Ok false, touch (event_target e) w)).
  { intros Hb. destruct (timeline w (event_target e)) eqn:Htl; [done|].
    apply event_at_lookup in He.
    rewrite (isinstance_run _ _ _ (OEvent e)) by (by rewrite touch_heap).
    rewrite bool_decide_true in Hb by done. simpl in Hb. by rewrite Hb. }
  destruct (bool_decide _ && is_InitialValue e) eqn:Hb.
  - apply andb_true_iff in Hb as [Hne%bool_decide_eq_true Hiv].
    rewrite (touch_nonempty _ _ Hne).
    destruct (timeline w (event_target e)) eqn:Htl; [done|].
    apply event_at_lookup in He.
    rewrite (isinstance_run _ _ _ (OEvent e)) by done.
    by rewrite Hiv.
  - rewrite (is_iv_ok eq_refl). clear is_iv_ok.
    unfold bind at 1. cbn [assert negb ret]. unfold bind at 1.
    rewrite getitem_run, touch_idem, touch_timeline.
    apply pointers_at_lookup in Hd as (sn & Hs & Hdict).
    unfold_monad. reduce_state.
    rewrite touch_snapshots, Hlast. reduce_state.
    rewrite touch_heap, Hs. reduce_state. rewrite Hdict. reduce_state.
    rewrite lookup_app_r, Nat.sub_diag by done. cbn [lookup list_lookup].
    reduce_state. unfold appended. f_equal.
    assert (pointers_at (heap w) (_latest_snapshot (self w)) = Some d) as ->
      by (apply pointers_at_lookup; eauto).
    cbn [default]. rewrite touch_dict_set, touch_filename,
      touch_offset_to_lineno.
    rewrite insert_app_r_alt, Nat.sub_diag by done. cbn [insert list_insert].
    rewrite length_app. cbn [length]. rewrite Nat.add_1_r.
    rewrite touch_snapshots, <- app_assoc. done.
Qed.


Lemma add_new_event_not_event event w :
  event_at (heap w) event = None -> snd (_add_new_event event w) = w.
Proof.
  unfold event_at, _add_new_event, bind at 1, load_event, bind, load, ret, raise.
  by destruct (heap w !! event) as [[]|].
Qed.

(** ** Objects survive the growth of the store *)

Lemma event_at_app h ext l :
  is_Some (event_at h l) -> event_at (h ++ ext) l = event_at h l.
Proof.
  intros [e He]. unfold event_at in *.
  destruct (h !! l) as [o|] eqn:Hl; [|done].
  by rewrite (lookup_app_l_Some _ _ _ _ Hl).
Qed.

Lemma pointers_at_app h ext s :
  is_Some (pointers_at h s) -> pointers_at (h ++ ext) s = pointers_at h s.
Proof.
  intros [d Hd]. rewrite Hd.
  apply pointers_at_lookup in Hd as (sn & Hs & Hdict).
  apply pointers_at_lookup. exists sn.
  split; by apply lookup_app_l_Some.
Qed.

Lemma timeline_appended event target w name :
  timeline (appended event target w) name =
  if decide (target = name) then timeline w name ++ [event] else timeline w name.
Proof.
  unfold appended, timeline at 1. cbn [self raw_events].
  destruct (decide (target = name)) as [->|Hne].
  - by rewrite dict_get_set_eq.
  - by rewrite dict_get_set_ne.
Qed.

Lemma total_events_appended event target w :
  total_events (appended event target w) = S (total_events w).
Proof.
  unfold total_events, appended. cbn [self raw_events].
  pose proof (sum_lengths_dict_set (raw_events (self w)) target
                (timeline w target ++ [event])) as Hsum.
  rewrite length_app in Hsum. simpl in Hsum.
  fold (timeline w target) in Hsum. lia.
Qed.

Lemma pointers_at_appended event target w d :
  pointers_at (heap w) (_latest_snapshot (self w)) = Some d ->
  pointers_at (heap (appended event target w)) (S (length (heap w))) =
  Some (<[target := (pointer d target + 1)%Z]> d).
Proof.
  intros Hd. unfold appended. cbn [heap]. rewrite Hd. cbn [default].
  apply pointers_at_lookup. eexists. split.
  - rewrite lookup_app_r by lia.
    replace (S (length (heap w)) - length (heap w)) with 1 by lia. done.
  - cbn [Snapshot__init__ events_pointer].
    rewrite lookup_app_r by lia. by rewrite Nat.sub_diag.
Qed.

(** ** The invariant holds at creation and is kept by every change *)

Lemma frame_inv_init fname o2l h : frame_inv (Frame__init__ fname o2l h).
Proof.
  assert (pointers_at (h ++ [ODefaultDict ∅] ++ [OSnapshot (Snapshot__init__ (length h))])
            (S (length h)) = Some ∅) as Hseed.
  { apply pointers_at_lookup. eexists. split.
    - rewrite lookup_app_r by lia.
      replace (S (length h) - length h) with 1 by lia. done.
    - cbn [Snapshot__init__ events_pointer].
      rewrite lookup_app_r by lia. by rewrite Nat.sub_diag. }
  unfold Frame__init__. split; cbn [self heap raw_events snapshots _latest_snapshot].
  - apply NoDup_nil_2.
  - intros name l Hl. by apply elem_of_nil in Hl.
  - intros s ->%list_elem_of_singleton. by rewrite Hseed.
  - done.
  - exists (S (length h)), ∅. split; [done|]. split; [done|].
    intros name. unfold pointer. by rewrite lookup_empty.
  - intros i s s' d d' _ Hs'. by destruct i.
  - done.
  - intros d name. rewrite Hseed. intros [= <-].
    unfold pointer, timeline. by rewrite lookup_empty.
Qed.

Lemma frame_inv_extend w ext :
  frame_inv w -> frame_inv (mkWorld (heap w ++ ext) (self w)).
Proof.
  intros [Hkeys Hev Hsn Hlatest Hseed Hstep Hcount Hptr].
  assert (Hlatest_in : _latest_snapshot (self w) ∈ snapshots (self w)).
  { by apply last_Some_elem_of. }
  split; cbn [self heap]; unfold timeline, total_events in *; cbn [self heap];
    try done.
  - intros name l Hl. rewrite event_at_app; eauto.
  - intros s Hs. rewrite pointers_at_app; eauto.
  - destruct Hseed as (s & d & Hs & Hd & Hall). exists s, d.
    split; [done|]. split; [|done]. rewrite pointers_at_app; [done|]. by rewrite Hd.
  - intros i s s' d d' Hs Hs'.
    rewrite !pointers_at_app by (apply Hsn; eapply list_elem_of_lookup_2; eauto).
    eauto.
  - intros d name. rewrite pointers_at_app by eauto. apply Hptr.
Qed.

Lemma frame_inv_touch name w : frame_inv w -> frame_inv (touch name w).
Proof.
  intros [Hkeys Hev Hsn Hlatest Hseed Hstep Hcount Hptr].
  split.
  - unfold touch. destruct (dict_get (raw_events (self w)) name); [done|].
    by apply dict_set_NoDup.
  - intros n l. rewrite touch_timeline, touch_heap. apply Hev.
  - intros s. rewrite touch_snapshots, touch_heap. apply Hsn.
  - by rewrite touch_snapshots, touch_latest.
  - by rewrite touch_snapshots, touch_heap.
  - intros i s s' d d'. rewrite touch_snapshots, touch_heap. apply Hstep.
  - by rewrite touch_snapshots, touch_total_events.
  - intros d n. rewrite touch_heap, touch_latest, touch_timeline. apply Hptr.
Qed.


Lemma frame_inv_appended event target w :
  frame_inv w -> is_Some (event_at (heap w) event) ->
  frame_inv (appended event target w).
Proof.
  intros Hinv Hevent.
  pose proof (frame_inv_extend w
    [ODefaultDict (<[target := (pointer (default ∅ (pointers_at (heap w)
        (_latest_snapshot (self w)))) target + 1)%Z]>
        (default ∅ (pointers_at (heap w) (_latest_snapshot (self w)))));
     OSnapshot (Snapshot__init__ (length (heap w)))] Hinv) as Hext.
  destruct Hinv as [Hkeys Hev Hsn Hlatest Hseed Hstep Hcount Hptr].
  destruct Hext as [_ Hev' Hsn' _ Hseed' Hstep' _ Hptr'].
  cbn [self heap] in *.
  assert (Hlatest_in : _latest_snapshot (self w) ∈ snapshots (self w))
    by (by apply last_Some_elem_of).
  destruct (Hsn _ Hlatest_in) as [d Hd].
  pose proof (pointers_at_appended event target w d Hd) as Hnew.
  assert (Hheap : heap (appended event target w) =
    heap w ++ [ODefaultDict (<[target := (pointer d target + 1)%Z]> d);
               OSnapshot (Snapshot__init__ (length (heap w)))]).
  { unfold appended. cbn [heap]. by rewrite Hd. }
  rewrite Hd in Hev', Hsn', Hseed', Hstep', Hptr'. cbn [default] in *.
  assert (Hsnaps : snapshots (self (appended event target w)) =
                   snapshots (self w) ++ [S (length (heap w))]) by done.
  assert (Hlen : length (snapshots (self w)) <> 0) by lia.
  split.
  - unfold appended. cbn [self raw_events]. by apply dict_set_NoDup.
  - intros name l. rewrite timeline_appended, Hheap.
    destruct (decide (target = name)) as [->|Hne]; [|apply Hev'].
    intros [Hl| ->%list_elem_of_singleton]%elem_of_app; [by eapply Hev'|].
    by rewrite event_at_app.
  - intros s. rewrite Hsnaps, Hheap.
    intros [Hs| ->%list_elem_of_singleton]%elem_of_app; [by apply Hsn'|].
    rewrite <- Hheap, Hnew. eauto.
  - rewrite Hsnaps. apply last_snoc.
  - destruct Hseed' as (s & d0 & Hs & Hd0 & Hall). exists s, d0.
    rewrite Hsnaps, Hheap. split; [by apply lookup_app_l_Some|]. done.
  - intros i s s' d1 d2. rewrite Hsnaps.
    destruct (decide (S i < length (snapshots (self w)))) as [Hlt|Hge].
    + rewrite !lookup_app_l by lia. rewrite Hheap. apply Hstep'.
    + intros Hs Hs'.
      assert (S i = length (snapshots (self w))) as Hi.
      { apply lookup_lt_Some in Hs'. rewrite length_app in Hs'.
        simpl in Hs'. lia. }
      rewrite lookup_app_l in Hs by lia.
      rewrite Hi, lookup_app_r, Nat.sub_diag in Hs' by lia.
      injection Hs' as <-.
      assert (s = _latest_snapshot (self w)) as ->.
      { rewrite last_lookup in Hlatest.
        replace (pred (length (snapshots (self w)))) with i in Hlatest by lia.
        congruence. }
      rewrite Hnew. rewrite Hheap, pointers_at_app by eauto.
      rewrite Hd. intros [= <-] [= <-]. exists target. unfold pointer. split.
      * by rewrite lookup_insert_eq.
      * intros other Hne. by rewrite lookup_insert_ne.
  - rewrite Hsnaps, length_app, total_events_appended. simpl. lia.
  - intros d' name. change (_latest_snapshot (self (appended event target w)))
      with (S (length (heap w))).
    rewrite Hnew. intros [= <-]. rewrite timeline_appended.
    specialize (Hptr d). unfold pointer in *.
    destruct (decide (target = name)) as [->|Hne].
    + rewrite lookup_insert_eq, length_app. cbn [default length].
      rewrite (Hptr name Hd). unfold id. lia.
    + rewrite lookup_insert_ne by done. by apply Hptr.
Qed.


Lemma frame_inv_latest_pointers w :
  frame_inv w -> is_Some (pointers_at (heap w) (_latest_snapshot (self w))).
Proof.
  intros Hinv. apply (inv_snapshots w Hinv).
  apply last_Some_elem_of, (inv_latest w Hinv).
Qed.

Lemma frame_inv_last_event w name l :
  frame_inv w -> last (timeline w name) = Some l -> is_Some (heap w !! l).
Proof.
  intros Hinv Hl. apply last_Some_elem_of in Hl.
  destruct (inv_events w Hinv name l Hl) as [e He].
  apply event_at_lookup in He. eauto.
Qed.

Lemma add_new_event_inv event w :
  frame_inv w -> frame_inv (snd (_add_new_event event w)).
Proof.
  intros Hinv. destruct (event_at (heap w) event) as [e|] eqn:He.
  - destruct (frame_inv_latest_pointers w Hinv) as [d Hd].
    rewrite (add_new_event_run event e w d He (inv_latest w Hinv) Hd).
    case_bool_decide; [done|].
    destruct (_ && _); [done|]. cbn [snd].
    apply frame_inv_appended; [done|]. by rewrite He.
  - by rewrite add_new_event_not_event.
Qed.

Lemma knows_run name w :
  frame_inv w -> _knows name w = (Ok (known w name), touch name w).
Proof.
  intros Hinv. apply contains_run. intros l. by apply frame_inv_last_event.
Qed.

(** ** Reconstructing the latest value *)

Lemma fold_mutations_run rest : forall value es w,
  Forall2 (fun l e => event_at (heap w) l = Some e) rest es ->
  fold_mutations value rest w =
  (if forallb is_Mutation es
   then Ok (fold_left apply_delta (omap event_delta es) value)
   else Raise AssertionError, w).
Proof.
  induction rest as [|l rest IH]; intros value es w Hall.
  - apply Forall2_nil_inv_l in Hall as ->. done.
  - apply Forall2_cons_inv_l in Hall as (e & es' & He & Hrest & ->).
    cbn [fold_mutations]. unfold bind. rewrite (load_run _ _ _ He).
    destruct e; try done. cbn [forallb is_Mutation andb omap event_delta].
    rewrite (IH _ es') by done. done.
Qed.

Lemma fold_mutations_state rest : forall value w,
  snd (fold_mutations value rest w) = w.
Proof.
  induction rest as [|l rest IH]; intros value w; [done|].
  cbn [fold_mutations]. unfold bind, load, ret, raise.
  destruct (heap w !! l) as [[e| |]|]; try done.
  destruct e; first [done | apply IH].
Qed.

Lemma latest_value_of_state name w :
  frame_inv w -> snd (_latest_value_of name w) = touch name w.
Proof.
  intros Hinv. unfold _latest_value_of, bind at 1.
  rewrite contains_run by (intros l; by apply frame_inv_last_event).
  destruct (known w name); [|done]. cbn [negb]. unfold bind at 1.
  rewrite getitem_run, touch_idem, touch_timeline.
  destruct (timeline w name) as [|first rest]; [done|].
  unfold bind, load, ret, raise.
  destruct (heap (touch name w) !! first) as [[e| |]|]; try done.
  destruct e; first [done | apply fold_mutations_state].
Qed.


(** ** The accumulated view *)

Lemma events_at_app h ls1 ls2 :
  events_at h (ls1 ++ ls2) = events_at h ls1 ++ events_at h ls2.
Proof. apply omap_app. Qed.

Lemma events_at_grow h ext ls :
  Forall (fun l => is_Some (event_at h l)) ls ->
  events_at (h ++ ext) ls = events_at h ls.
Proof.
  induction 1 as [|l ls Hl _ IH]; [done|].
  unfold events_at in *. cbn [omap list_omap]. by rewrite event_at_app, IH.
Qed.

Lemma events_at_length h ls :
  Forall (fun l => is_Some (event_at h l)) ls ->
  length (events_at h ls) = length ls.
Proof.
  induction 1 as [|l ls [e He] _ IH]; [done|].
  unfold events_at in *. cbn [omap list_omap]. rewrite He. simpl. by rewrite IH.
Qed.

Lemma events_at_last h ls :
  Forall (fun l => is_Some (event_at h l)) ls ->
  last (events_at h ls) = last ls ≫= event_at h.
Proof.
  intros Hall. destruct (last ls) as [l|] eqn:Hlast; simpl.
  - apply last_Some in Hlast as [ls' ->].
    apply Forall_app in Hall as [_ [[e He] _]%Forall_cons].
    rewrite events_at_app. unfold events_at at 2. cbn [omap list_omap].
    rewrite He. cbn [omap list_omap]. by rewrite last_snoc.
  - apply last_None in Hlast as ->. done.
Qed.

Lemma valid_grow h ext ls :
  Forall (fun l => is_Some (event_at h l)) ls ->
  Forall (fun l => is_Some (event_at (h ++ ext) l)) ls.
Proof.
  intros Hall. eapply Forall_impl; [done|].
  intros l Hl. by rewrite event_at_app.
Qed.

Lemma copy_or_same_grow h ext l l' :
  is_Some (event_at h l) ->
  copy_or_same (h ++ ext) l l' -> copy_or_same h l l'.
Proof.
  intros Hl. unfold copy_or_same. rewrite event_at_app by done.
  destruct (event_at h l) as [e|]; [|done].
  destruct (is_Mutation e); [|done]. rewrite length_app. lia.
Qed.

Lemma copies_grow h ext raw out :
  Forall (fun l => is_Some (event_at h l)) raw ->
  Forall2 (copy_or_same (h ++ ext)) raw out ->
  Forall2 (copy_or_same h) raw out.
Proof.
  intros Hvalid Hcopies. induction Hcopies as [|l l' raw out Hl _ IH];
    [constructor|].
  apply Forall_cons in Hvalid as [Hvl Hvalid].
  constructor; [by eapply copy_or_same_grow | by apply IH].
Qed.

Lemma result_append_eq result name l :
  result_append result name l =
  dict_set result name (default [] (dict_get result name) ++ [l]).
Proof.
  unfold result_append, result_getitem.
  destruct (dict_get result name); simpl; [done|]. by rewrite dict_set_set.
Qed.

Lemma result_getitem_fst result name :
  fst (result_getitem result name) = default [] (dict_get result name).
Proof. unfold result_getitem. by destruct (dict_get result name). Qed.

(** One turn of the inner loop on an event that is not a Mutation. *)
Lemma accumulate_events_keep name l rest result w e :
  event_at (heap w) l = Some e -> is_Mutation e = false ->
  accumulate_events name (l :: rest) result w =
  accumulate_events name rest
    (dict_set result name (default [] (dict_get result name) ++ [l])) w.
Proof.
  intros He Hm. apply event_at_lookup in He.
  cbn [accumulate_events]. unfold bind at 1.
  rewrite (isinstance_run _ _ _ _ He), Hm. cbn [negb].
  by rewrite result_append_eq.
Qed.

(** One turn of the inner loop on a Mutation. *)
Lemma accumulate_events_copy name l rest result w t f ln d s v :
  event_at (heap w) l = Some (Mutation t f ln d s v) ->
  Forall (fun l => is_Some (event_at (heap w) l))
    (default [] (dict_get result name)) ->
  accumulate_events name (l :: rest) result w =
  match last (default [] (dict_get result name)) ≫= event_at (heap w) with
  | None =>
      (Raise IndexError,
       mkWorld (heap w ++ [OEvent (Mutation t f ln d s v)]) (self w))
  | Some prev =>
      match event_value prev with
      | None =>
          (Raise AttributeError,
           mkWorld (heap w ++ [OEvent (Mutation t f ln d s v)]) (self w))
      | Some pv =>
          accumulate_events name rest
            (dict_set result name
               (default [] (dict_get result name) ++ [length (heap w)]))
            (mkWorld
               (heap w ++ [OEvent (Mutation t f ln d s (Some (apply_delta pv d)))])
               (self w))
      end
  end.
Proof.
  intros He Hacc. pose proof He as Hl. apply event_at_lookup in Hl.
  cbn [accumulate_events]. unfold bind at 1.
  rewrite (isinstance_run _ _ _ _ Hl). cbn [is_Mutation negb].
  unfold bind at 1, copy, bind at 1, load. rewrite Hl. unfold alloc at 1.
  pose proof (result_getitem_fst result name) as Hfst.
  assert (default [] (dict_get (result_getitem result name).2 name) =
          default [] (dict_get result name)) as Hsnd.
  { unfold result_getitem. destruct (dict_get result name) eqn:Hg; simpl.
    - by rewrite Hg.
    - by rewrite dict_get_set_eq. }
  assert (forall x, dict_set (result_getitem result name).2 name x =
                    dict_set result name x) as Hset.
  { intros x. unfold result_getitem. destruct (dict_get result name); simpl;
      [done|]. by rewrite dict_set_set. }
  destruct (result_getitem result name) as [lst result'].
  cbn [fst snd] in *. subst lst.
  destruct (last (default [] (dict_get result name))) as [prev|] eqn:Hlast;
    cbn [mbind option_bind]; [|done].
  destruct (proj1 (Forall_forall _ _) Hacc prev (last_Some_elem_of _ _ Hlast))
    as [pe Hpe].
  rewrite Hpe.
  set (w1 := {| heap := heap w ++ [OEvent (Mutation t f ln d s v)];
                self := self w |}).
  assert (event_at (heap w1) prev = Some pe) as Hpe1
    by (subst w1; cbn [heap]; by rewrite event_at_app; rewrite Hpe).
  assert (event_at (heap w1) l = Some (Mutation t f ln d s v)) as He1
    by (subst w1; cbn [heap]; by rewrite event_at_app; rewrite He).
  assert (event_at (heap w1) (length (heap w)) = Some (Mutation t f ln d s v))
    as Hnew.
  { apply event_at_lookup. subst w1. cbn [heap].
    rewrite lookup_app_r, Nat.sub_diag by done. done. }
  unfold bind at 1, getattr_value, bind at 1.
  rewrite (load_event_run _ _ _ Hpe1).
  destruct (event_value pe) as [pv|]; [|done]. cbn [ret].
  unfold bind at 1, getattr_delta, bind at 1.
  rewrite (load_event_run _ _ _ He1). cbn [event_delta ret].
  unfold bind at 1, setattr_value, bind at 1.
  rewrite (load_event_run _ _ _ Hnew). unfold store. cbn [set_event_value].
  subst w1. cbn [heap self].
  rewrite insert_app_r_alt, Nat.sub_diag by done.
  by rewrite result_append_eq, Hsnd, Hset.
Qed.


(** The inner loop refines [accumulated_timeline]: it only adds objects to
    the store, raises exactly when the view on values is undefined, and
    otherwise extends the entry of [name] by references to those events. *)
Lemma accumulate_events_run name raw : forall w result,
  Forall (fun l => is_Some (event_at (heap w) l)) raw ->
  Forall (fun l => is_Some (event_at (heap w) l))
    (default [] (dict_get result name)) ->
  exists ext,
    snd (accumulate_events name raw result w) = mkWorld (heap w ++ ext) (self w) /\
    match accumulated_timeline
            (events_at (heap w) (default [] (dict_get result name)))
            (events_at (heap w) raw) with
    | Raise exc => fst (accumulate_events name raw result w) = Raise exc
    | Ok es =>
        exists out,
          fst (accumulate_events name raw result w) =
            Ok (if raw is [] then result
                else dict_set result name
                       (default [] (dict_get result name) ++ out)) /\
          Forall (fun l => is_Some (event_at (heap w ++ ext) l)) out /\
          events_at (heap w ++ ext) (default [] (dict_get result name) ++ out) = es /\
          Forall2 (copy_or_same (heap w)) raw out
    end.
Proof.
  induction raw as [|l rest IH]; intros w result Hraw Hacc.
  - exists []. rewrite app_nil_r. split; [by destruct w|].
    cbn [events_at omap list_omap accumulated_timeline].
    exists []. rewrite app_nil_r. by repeat split.
  - apply Forall_cons in Hraw as [[e He] Hrest].
    set (acc := default [] (dict_get result name)) in *.
    assert (events_at (heap w) (l :: rest) = e :: events_at (heap w) rest) as ->
      by (unfold events_at; cbn [omap list_omap]; by rewrite He).
    assert (Hhead : copy_or_same (heap w) l
                      (if is_Mutation e then length (heap w) else l)).
    { unfold copy_or_same. rewrite He. by destruct (is_Mutation e). }
    destruct (is_Mutation e) eqn:Hm.
    + destruct e as [| |t f ln d s v|]; try done.
      rewrite (accumulate_events_copy name l rest result w t f ln d s v He Hacc).
      fold acc. cbn [accumulated_timeline].
      rewrite (events_at_last _ _ Hacc).
      destruct (last acc ≫= event_at (heap w)) as [pe|].
      2:{ eexists. split; [done|]. done. }
      destruct (event_value pe) as [pv|].
      2:{ eexists. split; [done|]. done. }
      set (e' := Mutation t f ln d s (Some (apply_delta pv d))).
      set (w1 := {| heap := heap w ++ [OEvent e']; self := self w |}).
      set (result1 := dict_set result name (acc ++ [length (heap w)])).
      assert (Hnew : event_at (heap w1) (length (heap w)) = Some e').
      { apply event_at_lookup. subst w1. cbn [heap].
        by rewrite lookup_app_r, Nat.sub_diag. }
      assert (Hacc1 : default [] (dict_get result1 name) = acc ++ [length (heap w)])
        by (subst result1; by rewrite dict_get_set_eq).
      destruct (IH w1 result1) as (ext & Hstate & Hres).
      { by apply (valid_grow (heap w)). }
      { rewrite Hacc1. apply Forall_app. split.
        - by apply (valid_grow (heap w)).
        - apply Forall_singleton. by rewrite Hnew. }
      exists (OEvent e' :: ext).
      assert (Hheap : heap w ++ OEvent e' :: ext = heap w1 ++ ext)
        by (subst w1; cbn [heap]; by rewrite <- app_assoc).
      rewrite Hheap. split; [done|].
      rewrite Hacc1, events_at_app in Hres.
      subst w1. cbn [heap] in Hres.
      rewrite (events_at_grow (heap w) [OEvent e'] acc Hacc) in Hres.
      rewrite (events_at_grow (heap w) [OEvent e'] rest Hrest) in Hres.
      assert (events_at (heap w ++ [OEvent e']) [length (heap w)] = [e']) as Heq.
      { unfold events_at. cbn [omap list_omap]. cbn [heap] in Hnew.
        by rewrite Hnew. }
      rewrite Heq in Hres.
      destruct (accumulated_timeline _ _) as [es|exc]; [|done].
      destruct Hres as (out & Hfst & Hvalid & Hevents & Hcopies).
      exists (length (heap w) :: out). cbn [heap]. split; [|split; [|split]].
      * rewrite Hfst. f_equal. subst result1.
        destruct rest; [|by rewrite dict_set_set, <- app_assoc].
        apply Forall2_nil_inv_l in Hcopies as ->. done.
      * apply Forall_cons. split; [|done].
        cbn [heap] in Hnew. rewrite event_at_app; by rewrite Hnew.
      * rewrite <- Hevents. f_equal. by rewrite <- app_assoc.
      * apply Forall2_cons. split; [done|].
        by eapply copies_grow.
    + rewrite (accumulate_events_keep name l rest result w e He Hm).
      fold acc.
      assert (accumulated_timeline (events_at (heap w) acc)
                (e :: events_at (heap w) rest) =
              accumulated_timeline (events_at (heap w) acc ++ [e])
                (events_at (heap w) rest)) as ->
        by (by destruct e).
      set (result1 := dict_set result name (acc ++ [l])).
      assert (Hacc1 : default [] (dict_get result1 name) = acc ++ [l])
        by (subst result1; by rewrite dict_get_set_eq).
      destruct (IH w result1) as (ext & Hstate & Hres); [done| |].
      { rewrite Hacc1. apply Forall_app. split; [done|].
        apply Forall_singleton. by rewrite He. }
      exists ext. split; [done|].
      rewrite Hacc1, events_at_app in Hres.
      assert (events_at (heap w) [l] = [e]) as Heq
        by (unfold events_at; cbn [omap list_omap]; by rewrite He).
      rewrite Heq in Hres.
      destruct (accumulated_timeline _ _) as [es|exc]; [|done].
      destruct Hres as (out & Hfst & Hvalid & Hevents & Hcopies).
      exists (l :: out). split; [|split; [|split]].
      * rewrite Hfst. f_equal. subst result1.
        destruct rest; [|by rewrite dict_set_set, <- app_assoc].
        apply Forall2_nil_inv_l in Hcopies as ->. done.
      * apply Forall_cons. split; [|done].
        rewrite event_at_app; by rewrite He.
      * rewrite <- Hevents. f_equal. by rewrite <- app_assoc.
      * by apply Forall2_cons.
Qed.


Lemma dict_set_absent {V} (d : list (string * V)) k v :
  dict_get d k = None -> dict_set d k v = d ++ [(k, v)].
Proof.
  induction d as [|[k0 v0] d IH]; simpl; [done|].
  destruct (decide (k0 = k)); [done|]. intros Hget. by rewrite IH.
Qed.

Lemma dict_get_Some_elem_of {V} (d : list (string * V)) k v :
  dict_get d k = Some v -> (k, v) ∈ d.
Proof.
  induction d as [|[k0 v0] d IH]; simpl; [done|].
  destruct (decide (k0 = k)) as [->|Hne].
  - intros [= ->]. apply elem_of_cons. by left.
  - intros Hget. apply elem_of_cons. right. by apply IH.
Qed.

Lemma events_of_grow h ext items :
  Forall (fun item : string * list loc =>
            Forall (fun l => is_Some (event_at h l)) (snd item)) items ->
  events_of (h ++ ext) items = events_of h items.
Proof.
  induction 1 as [|[name raw] items Hraw _ IH]; [done|].
  unfold events_of in *. cbn [map fst snd] in *.
  by rewrite events_at_grow, IH.
Qed.

Lemma accumulate_items_run items : forall w result,
  NoDup (map fst items) ->
  (forall name, name ∈ map fst items -> dict_get result name = None) ->
  Forall (fun item : string * list loc =>
            Forall (fun l => is_Some (event_at (heap w) l)) (snd item)) items ->
  exists ext,
    snd (accumulate_items items result w) = mkWorld (heap w ++ ext) (self w) /\
    match accumulated_view (events_of (heap w) items) with
    | Raise exc => fst (accumulate_items items result w) = Raise exc
    | Ok view =>
        exists res,
          fst (accumulate_items items result w) = Ok (result ++ res) /\
          events_of (heap w ++ ext) res = view /\
          Forall (entry_accumulated (heap w) (heap w ++ ext) items) res
    end.
Proof.
  induction items as [|[name raw] items IH]; intros w result Hkeys Hfresh Hvalid.
  - exists []. rewrite app_nil_r. split; [by destruct w|].
    exists []. by rewrite app_nil_r.
  - cbn [map fst] in Hkeys. apply NoDup_cons in Hkeys as [Hname Hkeys].
    apply Forall_cons in Hvalid as [Hraw Hvalid]. cbn [snd] in Hraw.
    assert (Hnone : dict_get result name = None)
      by (apply Hfresh; cbn [map fst]; apply elem_of_cons; by left).
    destruct (accumulate_events_run name raw w result) as (ext1 & Hstate1 & Hres1);
      [done|by rewrite Hnone|].
    rewrite Hnone in Hres1. cbn [default events_at omap list_omap] in Hres1.
    cbn [accumulate_items events_of map fst snd accumulated_view].
    unfold bind.
    destruct (accumulate_events name raw result w) as [r1 w1] eqn:Hrun1.
    cbn [fst snd] in *. subst w1.
    fold (events_of (heap w) items).
    destruct (accumulated_timeline [] (events_at (heap w) raw)) as [es|exc]
      eqn:Hpure.
    2:{ subst r1. exists ext1. done. }
    destruct Hres1 as (out & -> & Hout & Hes & Hcopies). cbn [app] in Hes.
    set (result1 := if raw is [] then result else dict_set result name ([] ++ out)).
    set (w1 := {| heap := heap w ++ ext1; self := self w |}).
    destruct (IH w1 result1) as (ext2 & Hstate2 & Hres2); [done| | |].
    { intros n Hn. subst result1.
      assert (dict_get result n = None) as Hn'
        by (apply Hfresh; cbn [map fst]; apply elem_of_cons; by right).
      destruct raw; [done|]. rewrite dict_get_set_ne; [done|].
      intros ->. done. }
    { subst w1. cbn [heap]. eapply Forall_impl; [exact Hvalid|].
      intros item. apply valid_grow. }
    exists (ext1 ++ ext2).
    assert (Hheap : heap w ++ ext1 ++ ext2 = heap w1 ++ ext2)
      by (subst w1; cbn [heap]; by rewrite app_assoc).
    rewrite Hheap. split; [done|].
    subst w1. cbn [heap] in *. rewrite events_of_grow in Hres2 by done.
    destruct (accumulated_view (events_of (heap w) items)) as [view|exc]; [|done].
    destruct Hres2 as (res & Hfst & Hview & Hentries).
    assert (Hentries' : Forall (entry_accumulated (heap w)
              ((heap w ++ ext1) ++ ext2) ((name, raw) :: items)) res).
    { eapply Forall_impl; [exact Hentries|].
      intros item (raw' & Hin & Hacc & Hcp). exists raw'.
      assert (Forall (fun l => is_Some (event_at (heap w) l)) raw') as Hraw'
        by (apply (proj1 (Forall_forall _ _) Hvalid _ Hin)).
      split; [apply elem_of_cons; by right|]. split.
      - by rewrite <- Hacc, events_at_grow.
      - by eapply copies_grow. }
    destruct raw as [|l raw].
    + exists res. subst result1. split; [done|]. split; [|done].
      rewrite Hview. done.
    + exists ((name, out) :: res). subst result1. cbn [app] in *.
      rewrite Hfst, (dict_set_absent _ _ _ Hnone), <- app_assoc.
      split; [done|].
      assert (events_at (heap w) (l :: raw) <> []) as Hne.
      { apply Forall_cons in Hraw as [[e He] _].
        unfold events_at. cbn [omap list_omap]. by rewrite He. }
      split.
      * cbn [events_of map fst snd]. fold (events_of ((heap w ++ ext1) ++ ext2) res).
        rewrite Hview, events_at_grow, Hes by done.
        by destruct (events_at (heap w) (l :: raw)).
      * apply Forall_cons. split; [|done].
        exists (l :: raw). cbn [fst snd].
        split; [apply elem_of_cons; by left|]. split; [|done].
        by rewrite Hpure, events_at_grow, Hes.
Qed.


Lemma frame_inv_items_valid w :
  frame_inv w ->
  Forall (fun item : string * list loc =>
            Forall (fun l => is_Some (event_at (heap w) l)) (snd item))
    (raw_events (self w)).
Proof.
  intros Hinv. apply Forall_forall. intros [name raw] Hin. cbn [snd].
  apply Forall_forall. intros l Hl. apply (inv_events w Hinv name).
  unfold timeline. by rewrite (dict_get_elem_of _ _ _ (inv_keys w Hinv) Hin).
Qed.

Lemma accumulated_events_run w :
  frame_inv w ->
  exists ext,
    snd (accumulated_events w) = mkWorld (heap w ++ ext) (self w) /\
    match accumulated_view (events_of (heap w) (raw_events (self w))) with
    | Raise exc => fst (accumulated_events w) = Raise exc
    | Ok view =>
        exists res,
          fst (accumulated_events w) = Ok res /\
          events_of (heap w ++ ext) res = view /\
          Forall (entry_accumulated (heap w) (heap w ++ ext)
                    (raw_events (self w))) res
    end.
Proof.
  intros Hinv. unfold accumulated_events, bind, get_self.
  apply (accumulate_items_run (raw_events (self w)) w []).
  - apply (inv_keys w Hinv).
  - done.
  - by apply frame_inv_items_valid.
Qed.

(** ** Every method keeps the invariant *)

Lemma log_grows_refl w : log_grows w w.
Proof. by intros name. Qed.

Lemma log_grows_same w w' : self w' = self w -> log_grows w w'.
Proof. intros Hself name. unfold timeline. by rewrite Hself. Qed.

Lemma log_grows_touch name w : log_grows w (touch name w).
Proof. intros n. by rewrite touch_timeline. Qed.

Lemma log_grows_appended event target w : log_grows w (appended event target w).
Proof.
  intros name. rewrite timeline_appended.
  destruct (decide (target = name)); [by apply prefix_app_r|done].
Qed.

Lemma preserves_bind {A B} (m : M A) (k : A -> M B) :
  preserves m -> (forall a, preserves (k a)) -> preserves (bind m k).
Proof.
  intros Hm Hk w Hinv. unfold bind. destruct (Hm w Hinv) as [Hinv' Hgrows].
  destruct (m w) as [[a|exc] w']; [|done]. cbn [snd] in *.
  destruct (Hk a w' Hinv') as [Hinv'' Hgrows'']. split; [done|].
  intros name. etrans; [apply Hgrows|apply Hgrows''].
Qed.

Lemma preserves_ret {A} (a : A) : preserves (ret a).
Proof. intros w Hinv. split; [done|apply log_grows_refl]. Qed.

Lemma preserves_raise {A} exc : preserves (@raise _ A exc).
Proof. intros w Hinv. split; [done|apply log_grows_refl]. Qed.

Lemma preserves_get_self : preserves get_self.
Proof. intros w Hinv. split; [done|apply log_grows_refl]. Qed.

Lemma preserves_alloc o : preserves (alloc o).
Proof.
  intros w Hinv. split; [by apply frame_inv_extend|by apply log_grows_same].
Qed.

Lemma preserves_lineno_of offset : preserves (lineno_of offset).
Proof.
  intros w Hinv. unfold lineno_of, bind, get_self.
  destruct (offset_to_lineno (self w) !! offset);
    (split; [done|apply log_grows_refl]).
Qed.

Lemma preserves_knows name : preserves (_knows name).
Proof.
  intros w Hinv. rewrite knows_run by done.
  split; [by apply frame_inv_touch|apply log_grows_touch].
Qed.

Lemma preserves_latest_value_of name : preserves (_latest_value_of name).
Proof.
  intros w Hinv. rewrite latest_value_of_state by done.
  split; [by apply frame_inv_touch|apply log_grows_touch].
Qed.

Lemma preserves_add_new_event event : preserves (_add_new_event event).
Proof.
  intros w Hinv. split; [by apply add_new_event_inv|].
  destruct (event_at (heap w) event) as [e|] eqn:He.
  - destruct (frame_inv_latest_pointers w Hinv) as [d Hd].
    rewrite (add_new_event_run event e w d He (inv_latest w Hinv) Hd).
    case_bool_decide; [apply log_grows_refl|].
    destruct (_ && _); [apply log_grows_refl|apply log_grows_appended].
  - rewrite add_new_event_not_event by done. apply log_grows_refl.
Qed.

Lemma preserves_accumulated_events : preserves accumulated_events.
Proof.
  intros w Hinv. destruct (accumulated_events_run w Hinv) as (ext & -> & _).
  split; [by apply frame_inv_extend|by apply log_grows_same].
Qed.

Lemma preserves_log_events event_info offset live_value :
  preserves (log_events event_info offset live_value).
Proof.
  unfold log_events. destruct event_info as [info|]; [|apply preserves_ret].
  apply preserves_bind; [|apply preserves_add_new_event].
  destruct (ei_type info).
  - apply preserves_bind; [apply preserves_knows|]. intros [].
    + apply preserves_bind; [apply preserves_get_self|]. intros f.
      apply preserves_bind; [apply preserves_lineno_of|]. intros lineno.
      apply preserves_bind; [apply preserves_latest_value_of|]. intros old.
      apply preserves_alloc.
    + apply preserves_bind; [apply preserves_get_self|]. intros f.
      apply preserves_bind; [apply preserves_lineno_of|]. intros lineno.
      apply preserves_alloc.
  - apply preserves_bind; [apply preserves_get_self|]. intros f.
    apply preserves_bind; [apply preserves_lineno_of|]. intros lineno.
    apply preserves_alloc.
Qed.

Lemma preserves_log_initial_value_events target ignored name_exist offset v :
  preserves (log_initial_value_events target ignored name_exist offset v).
Proof.
  unfold log_initial_value_events. destruct ignored; [apply preserves_ret|].
  apply preserves_bind.
  - destruct name_exist; [|apply preserves_ret].
    apply preserves_bind; [apply preserves_knows|]. intros b. apply preserves_ret.
  - intros []; [|apply preserves_ret].
    apply preserves_bind; [apply preserves_lineno_of|]. intros lineno.
    apply preserves_bind; [apply preserves_get_self|]. intros f.
    apply preserves_bind; [apply preserves_alloc|]. intros event.
    apply preserves_add_new_event.
Qed.

Lemma exec_preserves c w :
  frame_inv w -> frame_inv (exec c w) /\ log_grows w (exec c w).
Proof.
  destruct c; cbn [exec].
  - apply preserves_add_new_event.
  - apply preserves_knows.
  - apply preserves_latest_value_of.
  - apply preserves_accumulated_events.
  - apply (preserves_ret None).
  - apply (preserves_bind get_self); [apply preserves_get_self|].
    intros f. apply preserves_ret.
  - apply preserves_log_events.
  - apply preserves_log_initial_value_events.
  - apply preserves_alloc.
Qed.

Lemma reachable_inv w : reachable w -> frame_inv w.
Proof.
  induction 1 as [fname o2l h|w c _ IH].
  - apply frame_inv_init.
  - by apply exec_preserves.
Qed.

(** The log is append-only: no call removes or replaces a recorded event. *)
Lemma reachable_log_grows w c :
  reachable w -> log_grows w (exec c w).
Proof. intros Hinv%reachable_inv. by apply exec_preserves. Qed.

(** * Main theorems *)

Lemma known_last w name ls es :
  timeline w name = ls -> ls <> [] ->
  Forall2 (fun l e => event_at (heap w) l = Some e) ls es ->
  exists e, last es = Some e /\ known w name = negb (is_Deletion e).
Proof.
  intros Htl Hne Hall. unfold known. rewrite Htl.
  destruct (last ls) as [l|] eqn:Hlast; [|by apply last_None in Hlast].
  rewrite last_lookup in Hlast.
  destruct (Forall2_lookup_l _ _ _ _ _ Hall Hlast) as (e & He & Hev).
  exists e. rewrite Hev. split; [|done].
  by rewrite last_lookup, <- (Forall2_length _ _ _ Hall).
Qed.

(** C2.  When the timeline of [name] starts with an InitialValue or a
    Creation of value [v0], [_latest_value_of] returns [v0] with the deltas
    of the later events applied in order if these are all Mutations.
    Otherwise it raises: AssertionError from the fold when the timeline does
    not end in a Deletion, and AttributeError from the membership test,
    before the fold, when it does.  The frame is left as it was. *)
Theorem latest_value_of_folds_deltas w name first rest e0 v0 es :
  timeline w name = first :: rest ->
  event_at (heap w) first = Some e0 ->
  is_InitialValue e0 || is_Creation e0 = true ->
  event_value e0 = Some v0 ->
  Forall2 (fun l e => event_at (heap w) l = Some e) rest es ->
  _latest_value_of name w =
  (if forallb is_Mutation es
   then Ok (fold_left apply_delta (omap event_delta es) v0)
   else Raise (if is_Deletion (default e0 (last es))
               then AttributeError else AssertionError),
   w).
Proof.
  intros Htl He0 Hseed Hv0 Hrest.
  assert (Hall : Forall2 (fun l e => event_at (heap w) l = Some e)
                   (first :: rest) (e0 :: es)) by (by constructor).
  destruct (known_last w name _ _ Htl ltac:(done) Hall) as (e & Hlast & Hknown).
  assert (Hw : touch name w = w) by (apply touch_nonempty; by rewrite Htl).
  assert (He : default e0 (last es) = e).
  { rewrite last_cons in Hlast. destruct (last es); simpl in *; congruence. }
  unfold _latest_value_of, bind at 1. rewrite contains_run, Hknown, Hw.
  2:{ intros l Hl. apply last_Some_elem_of in Hl. rewrite Htl in Hl.
      destruct (proj1 (list_elem_of_lookup _ _) Hl) as [i Hi].
      destruct (Forall2_lookup_l _ _ _ _ _ Hall Hi) as (e' & _ & He').
      apply event_at_lookup in He'. eauto. }
  rewrite He. destruct (is_Deletion e) eqn:Hdel; cbn [negb].
  - assert (forallb is_Mutation es = false) as ->; [|done].
    destruct (last es) as [e'|] eqn:Hles; simpl in He; subst.
    + apply last_Some in Hles as [es' ->]. rewrite forallb_app. simpl.
      destruct e; try done. by rewrite andb_false_r.
    + by destruct e.
  - unfold bind at 1. rewrite getitem_run, Hw, Htl. unfold bind at 1.
    rewrite (load_run _ _ _ He0).
    destruct e0; try done; simpl in Hv0; injection Hv0 as ->;
      rewrite (fold_mutations_run rest _ es) by done;
      by destruct (forallb is_Mutation es).
Qed.


(** C4.  In a reachable state, [name in raw_events] returns a boolean and
    never raises; the answer is [False] exactly when [name] has no recorded
    event or its most recent event is a Deletion.  In particular, right
    after a Deletion for [name] was appended, the answer is [False]. *)
Theorem contains_tombstone w name :
  reachable w ->
  exists b,
    fst (_EventsDict__contains__ name w) = Ok b /\
    (b = false <->
     timeline w name = [] \/
     exists l e, last (timeline w name) = Some l /\
                 event_at (heap w) l = Some e /\ is_Deletion e = true) /\
    forall event e,
      event_at (heap w) event = Some e -> is_Deletion e = true ->
      event_target e = name -> name <> EmptyString ->
      fst (_add_new_event event w) = Ok tt /\
      fst (_EventsDict__contains__ name (snd (_add_new_event event w))) = Ok false.
Proof.
  intros Hinv%reachable_inv.
  assert (Hrun : forall w, frame_inv w ->
            _EventsDict__contains__ name w = (Ok (known w name), touch name w)).
  { intros w0 Hinv0. apply contains_run. intros l.
    by apply frame_inv_last_event. }
  exists (known w name). rewrite (Hrun w Hinv). split; [done|]. split.
  - unfold known. destruct (last (timeline w name)) as [l|] eqn:Hlast.
    + destruct (inv_events w Hinv name l (last_Some_elem_of _ _ Hlast))
        as [e He].
      rewrite He. split.
      * intros Hdel%negb_false_iff. right. eauto.
      * intros [Hnil|(l' & e' & [= <-] & He' & Hdel)].
        -- by rewrite Hnil in Hlast.
        -- rewrite He in He'. injection He' as <-. by rewrite Hdel.
    + split; [|done]. intros _. left. by apply last_None.
  - intros event e He Hdel Htarget Hname.
    destruct (frame_inv_latest_pointers w Hinv) as [d Hd].
    pose proof (add_new_event_inv event w Hinv) as Hinv'.
    rewrite (add_new_event_run event e w d He (inv_latest w Hinv) Hd) in *.
    rewrite bool_decide_false in * by congruence.
    assert (is_InitialValue e = false) as Hiv by (by destruct e).
    rewrite Hiv, andb_false_r in *. cbn [fst snd] in *. split; [done|].
    rewrite (Hrun _ Hinv'). cbn [fst]. f_equal.
    unfold known. rewrite timeline_appended, Htarget, decide_True, last_snoc by done.
    assert (event_at (heap (appended event name w)) event = Some e) as ->.
    { unfold appended. cbn [heap]. rewrite event_at_app; by rewrite He. }
    by rewrite Hdel.
Qed.

(** C5, as the code has it.  Querying the latest value of an identifier
    with no recorded event raises AttributeError, which is not a
    LookupError; the query leaves the identifier bound to an empty list and
    changes nothing else. *)
Theorem latest_value_of_unknown_raises_AttributeError w name :
  timeline w name = [] ->
  _latest_value_of name w = (Raise AttributeError, touch name w) /\
  issubclass AttributeError LookupError = false.
Proof.
  intros Htl. split; [|done].
  unfold _latest_value_of, bind at 1.
  rewrite contains_run by (intros l; by rewrite Htl).
  unfold known. by rewrite Htl.
Qed.

(** C6.  In a reachable state the seed snapshot maps every identifier to
    -1, and between any two consecutive snapshots the pointer of exactly
    one identifier changes, by +1; from the sentinel -1 it moves to 0. *)
Theorem snapshots_step_by_one w :
  reachable w ->
  (exists s d,
     snapshots (self w) !! 0 = Some s /\ pointers_at (heap w) s = Some d /\
     forall name, pointer d name = (-1)%Z) /\
  forall i, S i < length (snapshots (self w)) ->
    exists s s' d d' name,
      snapshots (self w) !! i = Some s /\
      snapshots (self w) !! S i = Some s' /\
      pointers_at (heap w) s = Some d /\
      pointers_at (heap w) s' = Some d' /\
      pointer d' name = (pointer d name + 1)%Z /\
      (pointer d name = (-1)%Z -> pointer d' name = 0%Z) /\
      forall other, other <> name -> pointer d' other = pointer d other.
Proof.
  intros Hinv%reachable_inv. split; [apply (inv_seed w Hinv)|].
  intros i Hi.
  destruct (lookup_lt_is_Some_2 (snapshots (self w)) i ltac:(lia)) as [s Hs].
  destruct (lookup_lt_is_Some_2 (snapshots (self w)) (S i) Hi) as [s' Hs'].
  destruct (inv_snapshots w Hinv s (list_elem_of_lookup_2 _ _ _ Hs)) as [d Hd].
  destruct (inv_snapshots w Hinv s' (list_elem_of_lookup_2 _ _ _ Hs')) as [d' Hd'].
  destruct (inv_step w Hinv i s s' d d' Hs Hs' Hd Hd') as (name & Hname & Hothers).
  exists s, s', d, d', name. repeat (split; [done|]).
  split; [|done]. intros Hseed. rewrite Hname, Hseed. done.
Qed.

(** C7.  [_add_new_event] changes no Snapshot that was in the index before
    the call: the Snapshot object (pointer reference and location tag) and
    its pointer mapping are the same afterwards, and it is still indexed. *)
Theorem add_new_event_keeps_snapshots w event s :
  reachable w ->
  s ∈ snapshots (self w) ->
  heap (snd (_add_new_event event w)) !! s = heap w !! s /\
  pointers_at (heap (snd (_add_new_event event w))) s = pointers_at (heap w) s /\
  s ∈ snapshots (self (snd (_add_new_event event w))).
Proof.
  intros Hinv%reachable_inv Hs.
  destruct (event_at (heap w) event) as [e|] eqn:He.
  2:{ by rewrite add_new_event_not_event. }
  destruct (frame_inv_latest_pointers w Hinv) as [d Hd].
  rewrite (add_new_event_run event e w d He (inv_latest w Hinv) Hd).
  case_bool_decide; [done|]. destruct (_ && _); [done|]. cbn [snd].
  pose proof (inv_snapshots w Hinv s Hs) as Hsome.
  unfold appended. cbn [heap self snapshots]. split; [|split].
  - destruct Hsome as [d0 (sn & Hsn & _)%pointers_at_lookup].
    rewrite Hsn. by apply lookup_app_l_Some.
  - by apply pointers_at_app.
  - apply elem_of_app. by left.
Qed.

(** C8.  [_add_new_event] is all or nothing.  It raises AssertionError and
    leaves the whole state as it was exactly when the target is empty or the
    event is an InitialValue for an identifier that already has an event;
    otherwise it succeeds, the event is the new end of its target's
    timeline, no other timeline changes, and the index has one more
    snapshot. *)
Theorem add_new_event_atomic w event e :
  reachable w ->
  event_at (heap w) event = Some e ->
  let target := event_target e in
  let violation :=
    target = EmptyString \/ (is_InitialValue e = true /\ timeline w target <> []) in
  (violation -> _add_new_event event w = (Raise AssertionError, w)) /\
  (~ violation ->
   exists w' s,
     _add_new_event event w = (Ok tt, w') /\
     timeline w' target = timeline w target ++ [event] /\
     (forall name, name <> target -> timeline w' name = timeline w name) /\
     snapshots (self w') = snapshots (self w) ++ [s] /\
     total_events w' = S (total_events w)).
Proof.
  intros Hinv%reachable_inv He target violation. subst violation.
  destruct (frame_inv_latest_pointers w Hinv) as [d Hd].
  rewrite (add_new_event_run event e w d He (inv_latest w Hinv) Hd).
  fold target. split.
  - intros [Hempty|[Hiv Hne]].
    + by rewrite bool_decide_true.
    + case_bool_decide; [done|]. by rewrite bool_decide_true, Hiv.
  - intros Hok. rewrite bool_decide_false by tauto.
    assert (bool_decide (timeline w target <> []) && is_InitialValue e = false)
      as ->.
    { apply andb_false_iff. destruct (is_InitialValue e); [|by right].
      left. apply bool_decide_eq_false. intros Hne. apply Hok. by right. }
    exists (appended event target w), (S (length (heap w))).
    split; [done|]. split; [|split; [|split]].
    + by rewrite timeline_appended, decide_True.
    + intros name Hne. by rewrite timeline_appended, decide_False.
    + done.
    + apply total_events_appended.
Qed.

(** C10.  In a reachable state, [latest_snapshot] is the last element of
    [snapshots]; there is one snapshot more than there are events in the
    log; and the latest snapshot points, for every identifier, at the index
    of its most recent event, [len(raw_events[name]) - 1], which is -1 for
    an identifier without events. *)
Theorem latest_snapshot_tracks_log w :
  reachable w ->
  fst (latest_snapshot w) = Ok (_latest_snapshot (self w)) /\
  last (snapshots (self w)) = Some (_latest_snapshot (self w)) /\
  length (snapshots (self w)) = 1 + total_events w /\
  exists d,
    pointers_at (heap w) (_latest_snapshot (self w)) = Some d /\
    forall name,
      pointer d name = (Z.of_nat (length (timeline w name)) - 1)%Z.
Proof.
  intros Hinv%reachable_inv. split; [done|].
  split; [apply (inv_latest w Hinv)|]. split; [apply (inv_count w Hinv)|].
  destruct (frame_inv_latest_pointers w Hinv) as [d Hd].
  exists d. split; [done|]. intros name. by apply (inv_pointer w Hinv).
Qed.


Lemma add_fresh_event_run w e :
  frame_inv w -> event_target e <> EmptyString -> is_InitialValue e = false ->
  exists w',
    _add_new_event (length (heap w)) (mkWorld (heap w ++ [OEvent e]) (self w)) =
      (Ok tt, w') /\
    appends w w' e.
Proof.
  intros Hinv Htarget Hiv.
  set (wa := mkWorld (heap w ++ [OEvent e]) (self w)).
  assert (Hinva : frame_inv wa) by (by apply frame_inv_extend).
  assert (Hnew : event_at (heap wa) (length (heap w)) = Some e).
  { apply event_at_lookup. subst wa. cbn [heap].
    by rewrite lookup_app_r, Nat.sub_diag. }
  destruct (frame_inv_latest_pointers wa Hinva) as [d Hd].
  rewrite (add_new_event_run _ e wa d Hnew (inv_latest wa Hinva) Hd).
  rewrite bool_decide_false, Hiv, andb_false_r by done.
  eexists. split; [done|]. exists (length (heap w)).
  split; [by apply lookup_ge_None|]. split; [|split].
  - unfold appended. cbn [heap]. rewrite event_at_app; by rewrite Hnew.
  - by rewrite timeline_appended, decide_True.
  - intros name Hne. by rewrite timeline_appended, decide_False.
Qed.

Lemma appends_touch name w w' e : appends (touch name w) w' e -> appends w w' e.
Proof.
  intros (l & Hl & He & Htl & Hothers). exists l.
  rewrite touch_heap in Hl. rewrite touch_timeline in Htl.
  split; [done|]. split; [done|]. split; [done|].
  intros n Hn. by rewrite Hothers, touch_timeline.
Qed.

Lemma run_appends (m : M unit) w e :
  (exists w', m w = (Ok tt, w') /\ appends w w' e) ->
  fst (m w) = Ok tt /\ appends w (snd (m w)) e.
Proof. by intros (w' & -> & Happ). Qed.

Lemma lineno_of_run offset lineno w :
  offset_to_lineno (self w) !! offset = Some lineno ->
  lineno_of offset w = (Ok lineno, w).
Proof. intros Hl. unfold lineno_of, bind, get_self. by rewrite Hl. Qed.

(** C3.  [log_events] on a reported change, for a non-empty target and a
    known instruction offset.  A Deletion is appended for a deletion.  For
    an assignment, a Mutation with delta [diff old live_value] and the
    reported sources is appended when the target is known and [old] is its
    latest value, and a Creation with the live value and the reported
    sources when the target is not known.  When the target is known and its
    latest value cannot be computed, the exception goes through. *)
Theorem log_events_classifies w info offset lineno live_value :
  reachable w ->
  ei_target info <> EmptyString ->
  offset_to_lineno (self w) !! offset = Some lineno ->
  let target := ei_target info in
  let fname := filename (self w) in
  let run := log_events (Some info) offset live_value w in
  match ei_type info with
  | ETDeletion =>
      fst run = Ok tt /\ appends w (snd run) (Deletion target fname lineno)
  | ETMutation =>
      (fst (_knows target w) = Ok true ->
       forall old, fst (_latest_value_of target w) = Ok old ->
         fst run = Ok tt /\
         appends w (snd run)
           (Mutation target fname lineno (diff old live_value)
              (ei_sources info) None)) /\
      (fst (_knows target w) = Ok true ->
       forall exc, fst (_latest_value_of target w) = Raise exc ->
         run = (Raise exc, w)) /\
      (fst (_knows target w) = Ok false ->
       fst run = Ok tt /\
       appends w (snd run)
         (Creation target live_value (ei_sources info) fname lineno))
  end.
Proof.
  intros Hinv%reachable_inv Htarget Hline target fname run.
  subst run. unfold log_events. fold target.
  pose proof (frame_inv_touch target w Hinv) as Hinvt.
  destruct (ei_type info).
  - rewrite knows_run by done. cbn [fst].
    assert (Hknown : known w target = true -> touch target w = w).
    { intros Hk. apply touch_nonempty. unfold known in Hk.
      by destruct (timeline w target). }
    split; [|split].
    + intros [= Hk] old Hold. specialize (Hknown Hk). apply run_appends.
      unfold bind at 1. unfold bind at 1.
      rewrite knows_run, Hk, Hknown by done.
      unfold bind at 1, get_self at 1. unfold bind at 1.
      rewrite (lineno_of_run _ _ _ Hline). unfold bind at 1.
      destruct (_latest_value_of target w) as [r w1] eqn:Hrun.
      pose proof (latest_value_of_state target w Hinv) as Hstate.
      rewrite Hrun, Hknown in Hstate. cbn [fst snd] in *. subst r w1.
      unfold alloc at 1.
      exact (add_fresh_event_run w
        (Mutation target fname lineno (diff old live_value) (ei_sources info) None)
        Hinv Htarget eq_refl).
    + intros [= Hk] exc Hexc. specialize (Hknown Hk).
      unfold bind at 1. unfold bind at 1.
      rewrite knows_run, Hk, Hknown by done.
      unfold bind at 1, get_self at 1. unfold bind at 1.
      rewrite (lineno_of_run _ _ _ Hline). unfold bind at 1.
      destruct (_latest_value_of target w) as [r w1] eqn:Hrun.
      pose proof (latest_value_of_state target w Hinv) as Hstate.
      rewrite Hrun, Hknown in Hstate. cbn [fst snd] in *. by subst r w1.
    + intros [= Hk]. apply run_appends.
      unfold bind at 1. unfold bind at 1.
      rewrite knows_run, Hk by done.
      unfold bind at 1, get_self at 1. unfold bind at 1.
      rewrite (lineno_of_run offset lineno) by (by rewrite touch_offset_to_lineno).
      unfold alloc at 1. rewrite touch_filename. fold fname.
      destruct (add_fresh_event_run (touch target w)
        (Creation target live_value (ei_sources info) fname lineno)
        Hinvt Htarget eq_refl) as (w' & Hrun & Happ).
      exists w'. split; [done|]. by eapply appends_touch.
  - apply run_appends.
    unfold bind at 1. unfold bind at 1, get_self at 1. unfold bind at 1.
    rewrite (lineno_of_run _ _ _ Hline). unfold alloc at 1.
    exact (add_fresh_event_run w (Deletion target fname lineno)
      Hinv Htarget eq_refl).
Qed.


Lemma result_view_run w :
  frame_inv w ->
  exists ext,
    snd (accumulated_events w) = mkWorld (heap w ++ ext) (self w) /\
    result_view (heap w ++ ext) (fst (accumulated_events w)) =
      accumulated_view (events_of (heap w) (raw_events (self w))) /\
    forall res, fst (accumulated_events w) = Ok res ->
      Forall (entry_accumulated (heap w) (heap w ++ ext) (raw_events (self w))) res.
Proof.
  intros Hinv. destruct (accumulated_events_run w Hinv) as (ext & Hstate & Hres).
  exists ext. split; [done|].
  destruct (accumulated_view _) as [view|exc].
  - destruct Hres as (res & -> & <- & Hentries). split; [done|].
    by intros ? [= <-].
  - rewrite Hres. by split.
Qed.

(** C9.  In a reachable state, [accumulated_events] leaves the frame and
    every object of the store as they were, so the raw events and their
    deltas are untouched.  What it returns is the accumulated view of the
    log: each Mutation entry is an object created by the call that carries
    the value of the entry before it with the Mutation's delta applied, and
    every other entry is the raw event itself.  A second call returns the
    same view (or raises the same exception). *)
Theorem accumulated_events_idempotent w :
  reachable w ->
  let first := accumulated_events w in
  let second := accumulated_events (snd first) in
  self (snd first) = self w /\
  heap w `prefix_of` heap (snd first) /\
  events_of (heap (snd first)) (raw_events (self (snd first))) =
    events_of (heap w) (raw_events (self w)) /\
  result_view (heap (snd first)) (fst first) =
    accumulated_view (events_of (heap w) (raw_events (self w))) /\
  result_view (heap (snd second)) (fst second) =
    result_view (heap (snd first)) (fst first) /\
  forall res name out,
    fst first = Ok res -> dict_get res name = Some out ->
    accumulated_timeline [] (events_at (heap w) (timeline w name)) =
      Ok (events_at (heap (snd first)) out) /\
    Forall2 (copy_or_same (heap w)) (timeline w name) out.
Proof.
  intros Hinv%reachable_inv first second. subst second first.
  destruct (result_view_run w Hinv) as (ext1 & Hstate1 & Hview1 & Hentries1).
  rewrite Hstate1. cbn [heap self].
  pose proof (frame_inv_extend w ext1 Hinv) as Hinv1.
  destruct (result_view_run _ Hinv1) as (ext2 & Hstate2 & Hview2 & _).
  rewrite Hstate2. cbn [heap self] in *.
  pose proof (events_of_grow (heap w) ext1 _ (frame_inv_items_valid w Hinv))
    as Hsame.
  split; [done|]. split; [by apply prefix_app_r|]. split; [done|].
  split; [done|]. split; [by rewrite Hview2, Hsame|].
  intros res name out Hres Hget.
  apply dict_get_Some_elem_of in Hget.
  destruct (proj1 (Forall_forall _ _) (Hentries1 res Hres) _ Hget)
    as (raw & Hin & Hacc & Hcopies).
  cbn [fst snd] in *.
  assert (timeline w name = raw) as ->; [|done].
  unfold timeline. by rewrite (dict_get_elem_of _ _ _ (inv_keys w Hinv) Hin).
Qed.

End Properties.

(** * The swap scenario, checked *)

Section SwapChecks.

#[local] Existing Instance StringCodec.

Lemma reachable_fresh_frame : reachable fresh_frame.
Proof. apply reachable_init. Qed.

Lemma reachable_swap2 : reachable swap2.
Proof. do 2 apply reachable_call. apply reachable_init. Qed.

Lemma reachable_swap_frame : reachable swap_frame.
Proof. do 4 apply reachable_call. apply reachable_init. Qed.

Lemma reachable_swap_with_initial_value : reachable swap_with_initial_value.
Proof. apply reachable_call, reachable_swap_frame. Qed.

(** C1.  The swap scenario holds the four events of the regression test,
    with each source bound to the index of the Creation it read, and
    [get_tracing_result] returns [None] on it: no tracing result for either
    Mutation. *)
Theorem get_tracing_result_swap :
  events_of (heap swap_frame) (raw_events (self swap_frame)) =
    [("x", [creation_x; mutation_x]); ("y", [creation_y; mutation_y])] /\
  get_tracing_result swap_frame = (Ok None, swap_frame).
Proof. split; [by vm_compute|done]. Qed.


(** On the swap scenario, the latest value of [x] is its Creation value
    with the delta of its Mutation applied. *)
Lemma latest_value_of_folds_deltas_witness :
  timeline swap_frame "x" = [2; 8] /\
  _latest_value_of "x" swap_frame = (Ok "bar", swap_frame).
Proof.
  split; [by vm_compute|].
  apply (latest_value_of_folds_deltas (H := StringCodec) swap_frame "x" 2 [8]
           creation_x "foo"%string [mutation_x]).
  - by vm_compute.
  - by vm_compute.
  - reflexivity.
  - reflexivity.
  - repeat constructor.
Defined.

(** On the swap scenario, the store to [x] of the swap is logged as a
    Mutation whose delta is the diff from ["foo"] to ["bar"]. *)
Lemma log_events_classifies_witness :
  reachable swap2 /\
  swap_lines !! 14%Z = Some 3%Z /\
  fst (_knows "x" swap2) = Ok true /\
  fst (_latest_value_of "x" swap2) = Ok "foo" /\
  fst (log_events (Some (mkEventInfo ETMutation "x" {[ ("y", 0) ]})) 14 "bar" swap2)
    = Ok tt /\
  appends swap2 swap3 mutation_x.
Proof.
  assert (Hknows : fst (_knows "x" swap2) = Ok true) by (by vm_compute).
  assert (Hold : fst (_latest_value_of "x" swap2) = Ok "foo") by (by vm_compute).
  assert (Hline : offset_to_lineno (self swap2) !! 14%Z = Some 3%Z)
    by (by vm_compute).
  split; [apply reachable_swap2|]. split; [by vm_compute|].
  split; [done|]. split; [done|].
  apply (proj1 (log_events_classifies (H := StringCodec) swap2
                  (mkEventInfo ETMutation "x" {[ ("y", 0) ]}) 14 3 "bar"
                  reachable_swap2 ltac:(done) Hline) Hknows "foo"%string Hold).
Defined.


(** [x = "foo"], [del x], [x = "bar"]: the frame knows [x], and the next
    assignment to [x], at an instruction of the file, appends no Mutation
    and no other event. *)
Lemma log_events_known_appends_nothing :
  ~ (fst (_knows "x" recreated) = Ok true ->
     exists e,
       appends recreated
         (snd (log_events (Some (mkEventInfo ETMutation "x" ∅)) 16 "baz" recreated))
         e).
Proof.
  intros Hclaim.
  assert (Hknows : fst (_knows "x" recreated) = Ok true) by (by vm_compute).
  destruct (Hclaim Hknows) as (e & l & _ & _ & Htl & Hother).
  assert (Hsame :
    snd (log_events (Some (mkEventInfo ETMutation "x" ∅)) 16 "baz" recreated) =
    recreated) by (by vm_compute).
  rewrite Hsame in Htl. apply (f_equal length) in Htl.
  rewrite length_app in Htl. cbn [length] in Htl. lia.
Qed.


(** On the swap scenario, an identifier that was never recorded is
    reported as absent. *)
Lemma contains_tombstone_witness :
  reachable swap_frame /\
  exists b,
    fst (_EventsDict__contains__ "z" swap_frame) = Ok b /\
    (b = false <->
     timeline swap_frame "z" = [] \/
     exists l e, last (timeline swap_frame "z") = Some l /\
                 event_at (heap swap_frame) l = Some e /\ is_Deletion e = true).
Proof.
  split; [apply reachable_swap_frame|].
  destruct (contains_tombstone (H := StringCodec) swap_frame "z"
              reachable_swap_frame) as (b & Hb & Hiff & _).
  by exists b.
Defined.

(** On a fresh frame, the exception raised for ["nonexistent"] is not a
    LookupError. *)
Lemma latest_value_of_nonexistent_not_LookupError :
  ~ exists exc w',
      _latest_value_of "nonexistent" fresh_frame = (Raise exc, w') /\
      issubclass exc LookupError = true.
Proof.
  intros (exc & w' & Hrun & Hsub).
  assert (fst (_latest_value_of "nonexistent" fresh_frame) = Raise AttributeError)
    as Hraise by (by vm_compute).
  rewrite Hrun in Hraise. cbn [fst] in Hraise. injection Hraise as ->.
  discriminate Hsub.
Qed.

Lemma latest_value_of_unknown_raises_AttributeError_witness :
  timeline fresh_frame "nonexistent" = [] /\
  _latest_value_of "nonexistent" fresh_frame =
    (Raise AttributeError, touch "nonexistent" fresh_frame) /\
  issubclass AttributeError LookupError = false.
Proof.
  split; [reflexivity|].
  apply (latest_value_of_unknown_raises_AttributeError (H := StringCodec)
           fresh_frame "nonexistent").
  reflexivity.
Defined.

(** The swap scenario, with its five snapshots. *)
Lemma snapshots_step_by_one_witness :
  reachable swap_frame /\
  (exists s d,
     snapshots (self swap_frame) !! 0 = Some s /\
     pointers_at (heap swap_frame) s = Some d /\
     forall name, pointer d name = (-1)%Z) /\
  forall i, S i < length (snapshots (self swap_frame)) ->
    exists s s' d d' name,
      snapshots (self swap_frame) !! i = Some s /\
      snapshots (self swap_frame) !! S i = Some s' /\
      pointers_at (heap swap_frame) s = Some d /\
      pointers_at (heap swap_frame) s' = Some d' /\
      pointer d' name = (pointer d name + 1)%Z /\
      (pointer d name = (-1)%Z -> pointer d' name = 0%Z) /\
      forall other, other <> name -> pointer d' other = pointer d other.
Proof.
  split; [apply reachable_swap_frame|].
  apply (snapshots_step_by_one (H := StringCodec) swap_frame).
  apply reachable_swap_frame.
Defined.

(** On the swap scenario, appending an event object once more leaves the
    seed snapshot as it was. *)
Lemma add_new_event_keeps_snapshots_witness :
  reachable swap_frame /\
  1 ∈ snapshots (self swap_frame) /\
  heap (snd (_add_new_event 2 swap_frame)) !! 1 = heap swap_frame !! 1 /\
  pointers_at (heap (snd (_add_new_event 2 swap_frame))) 1 =
    pointers_at (heap swap_frame) 1 /\
  1 ∈ snapshots (self (snd (_add_new_event 2 swap_frame))).
Proof.
  assert (Hin : 1 ∈ snapshots (self swap_frame)).
  { replace (snapshots (self swap_frame)) with [1; 4; 7; 10; 13]
      by (by vm_compute).
    apply elem_of_cons. by left. }
  split; [apply reachable_swap_frame|]. split; [exact Hin|].
  apply (add_new_event_keeps_snapshots (H := StringCodec) swap_frame 2 1
           reachable_swap_frame Hin).
Defined.

(** On the swap scenario, an InitialValue for [x], which already has
    events, is refused and nothing changes. *)
Lemma add_new_event_atomic_witness :
  reachable swap_with_initial_value /\
  event_at (heap swap_with_initial_value) 14 =
    Some (InitialValue "x" "baz"%string 4 "swap.py") /\
  _add_new_event 14 swap_with_initial_value =
    (Raise AssertionError, swap_with_initial_value).
Proof.
  assert (He : event_at (heap swap_with_initial_value) 14 =
               Some (InitialValue "x" "baz"%string 4 "swap.py"))
    by (by vm_compute).
  split; [apply reachable_swap_with_initial_value|]. split; [exact He|].
  apply (proj1 (add_new_event_atomic (H := StringCodec)
                  swap_with_initial_value 14 _
                  reachable_swap_with_initial_value He)).
  right. split; [reflexivity|]. by vm_compute.
Defined.

(** On the swap scenario, the view is computed twice with the same
    result, and the log is as before. *)
Lemma accumulated_events_idempotent_witness :
  reachable swap_frame /\
  self (snd (accumulated_events swap_frame)) = self swap_frame /\
  result_view (heap (snd (accumulated_events (snd (accumulated_events swap_frame)))))
    (fst (accumulated_events (snd (accumulated_events swap_frame)))) =
  result_view (heap (snd (accumulated_events swap_frame)))
    (fst (accumulated_events swap_frame)).
Proof.
  split; [apply reachable_swap_frame|].
  destruct (accumulated_events_idempotent (H := StringCodec) swap_frame
              reachable_swap_frame) as (Hself & _ & _ & _ & Hsame & _).
  split; [exact Hself | exact Hsame].
Defined.

(** The latest snapshot of the swap scenario. *)
Lemma latest_snapshot_tracks_log_witness :
  reachable swap_frame /\
  fst (latest_snapshot swap_frame) = Ok (_latest_snapshot (self swap_frame)) /\
  last (snapshots (self swap_frame)) = Some (_latest_snapshot (self swap_frame)) /\
  length (snapshots (self swap_frame)) = 1 + total_events swap_frame /\
  exists d,
    pointers_at (heap swap_frame) (_latest_snapshot (self swap_frame)) = Some d /\
    forall name,
      pointer d name = (Z.of_nat (length (timeline swap_frame name)) - 1)%Z.
Proof.
  split; [apply reachable_swap_frame|].
  apply (latest_snapshot_tracks_log (H := StringCodec) swap_frame).
  apply reachable_swap_frame.
Defined.

End SwapChecks.

(** * Further properties of the frame *)

Section Further.

Context `{Codec}.

(** ** The methods as functions of the state *)

Lemma timeline_valid w name :
  frame_inv w -> Forall (fun l => is_Some (event_at (heap w) l)) (timeline w name).
Proof. intros Hinv. apply Forall_forall. intros l. apply (inv_events w Hinv). Qed.

Lemma events_at_Forall2 h ls :
  Forall (fun l => is_Some (event_at h l)) ls ->
  Forall2 (fun l e => event_at h l = Some e) ls (events_at h ls).
Proof.
  induction 1 as [|l ls [e He] _ IH]; [constructor|].
  unfold events_at in *. cbn [omap list_omap]. rewrite He. by constructor.
Qed.

Lemma events_at_cons h l ls e :
  event_at h l = Some e -> events_at h (l :: ls) = e :: events_at h ls.
Proof. intros He. unfold events_at. cbn [omap list_omap]. by rewrite He. Qed.

Lemma events_at_nil_inv h ls :
  Forall (fun l => is_Some (event_at h l)) ls -> events_at h ls = [] -> ls = [].
Proof.
  intros Hvalid Hnil. apply events_at_length in Hvalid.
  rewrite Hnil in Hvalid. by destruct ls.
Qed.

Lemma known_events w name :
  frame_inv w ->
  known w name =
  match last (events_at (heap w) (timeline w name)) with
  | None => false
  | Some e => negb (is_Deletion e)
  end.
Proof.
  intros Hinv. rewrite (events_at_last _ _ (timeline_valid w name Hinv)).
  unfold known. destruct (last (timeline w name)) as [l|] eqn:Hlast; [|done].
  cbn [mbind option_bind].
  destruct (inv_events w Hinv name l (last_Some_elem_of _ _ Hlast)) as [e He].
  by rewrite He.
Qed.

Lemma known_nonempty w name : known w name = true -> timeline w name <> [].
Proof. unfold known. by destruct (timeline w name). Qed.

Lemma known_touch_id w name : known w name = true -> touch name w = w.
Proof. intros Hk. by apply touch_nonempty, known_nonempty. Qed.

(** [_latest_value_of] computes [latest_value] of the events of the
    timeline; the only change of state is the one of the membership test. *)
Lemma latest_value_of_run w name :
  frame_inv w ->
  _latest_value_of name w =
  (latest_value (events_at (heap w) (timeline w name)), touch name w).
Proof.
  intros Hinv. pose proof (timeline_valid w name Hinv) as Hvalid.
  pose proof (events_at_Forall2 _ _ Hvalid) as Hall.
  unfold _latest_value_of, bind at 1.
  rewrite contains_run by (intros l; by apply frame_inv_last_event).
  rewrite (known_events w name Hinv). unfold latest_value.
  destruct (last (events_at (heap w) (timeline w name))) as [e|] eqn:Hlast;
    cbn [negb]; [|done].
  destruct (is_Deletion e); cbn [negb]; [done|].
  unfold bind at 1. rewrite getitem_run, touch_idem, touch_timeline.
  destruct (timeline w name) as [|first rest] eqn:Htl; [done|].
  apply Forall2_cons_inv_l in Hall as (e0 & es & He0 & Hrest & Hes).
  rewrite Hes. unfold bind at 1.
  rewrite (load_run first (touch name w) e0) by (by rewrite touch_heap).
  destruct e0; try done;
    rewrite (fold_mutations_run rest _ es) by (by rewrite touch_heap);
    by destruct (forallb is_Mutation es).
Qed.

Lemma latest_value_snoc_mutation es old t f l d s v :
  latest_value es = Ok old ->
  latest_value (es ++ [Mutation t f l d s v]) = Ok (apply_delta old d).
Proof.
  unfold latest_value. rewrite last_snoc. cbn [is_Deletion].
  destruct (last es) as [e|]; [|done]. destruct (is_Deletion e); [done|].
  destruct es as [|e0 rest]; [done|]. cbn [app].
  destruct e0; try done; rewrite forallb_app; cbn [forallb is_Mutation];
    rewrite andb_true_r; (destruct (forallb is_Mutation rest); [|done]);
    intros [= <-]; by rewrite omap_app, fold_left_app.
Qed.

Lemma add_new_run e w :
  frame_inv w ->
  add_new e w =
  let wa := mkWorld (heap w ++ [OEvent e]) (self w) in
  if bool_decide (event_target e = EmptyString) then (Raise AssertionError, wa)
  else if bool_decide (timeline w (event_target e) <> []) && is_InitialValue e
       then (Raise AssertionError, wa)
       else (Ok tt, appended (length (heap w)) (event_target e) wa).
Proof.
  intros Hinv. cbn zeta.
  set (wa := mkWorld (heap w ++ [OEvent e]) (self w)).
  assert (Hinva : frame_inv wa) by (by apply frame_inv_extend).
  assert (Hnew : event_at (heap wa) (length (heap w)) = Some e).
  { apply event_at_lookup. subst wa. cbn [heap].
    by rewrite lookup_app_r, Nat.sub_diag. }
  destruct (frame_inv_latest_pointers wa Hinva) as [d Hd].
  unfold add_new, bind, alloc. fold wa.
  by rewrite (add_new_event_run _ e wa d Hnew (inv_latest wa Hinva) Hd).
Qed.

(** [log_events] on a reported change, case by case. *)
Lemma log_events_run w info offset live_value :
  frame_inv w ->
  log_events (Some info) offset live_value w =
  let target := ei_target info in
  let fname := filename (self w) in
  match ei_type info with
  | ETMutation =>
      if known w target then
        match offset_to_lineno (self w) !! offset with
        | None => (Raise KeyError, w)
        | Some lineno =>
            match latest_value (events_at (heap w) (timeline w target)) with
            | Raise exc => (Raise exc, w)
            | Ok old =>
                add_new (Mutation target fname lineno (diff old live_value)
                           (ei_sources info) None) w
            end
        end
      else
        match offset_to_lineno (self w) !! offset with
        | None => (Raise KeyError, touch target w)
        | Some lineno =>
            add_new (Creation target live_value (ei_sources info) fname lineno)
              (touch target w)
        end
  | ETDeletion =>
      match offset_to_lineno (self w) !! offset with
      | None => (Raise KeyError, w)
      | Some lineno => add_new (Deletion target fname lineno) w
      end
  end.
Proof.
  intros Hinv. cbn zeta. unfold log_events.
  destruct (ei_type info).
  - unfold bind at 1. unfold bind at 1. rewrite knows_run by done.
    destruct (known w (ei_target info)) eqn:Hk.
    + rewrite (known_touch_id _ _ Hk).
      unfold bind at 1, get_self at 1. unfold bind at 1.
      unfold lineno_of, bind at 1, get_self at 1.
      destruct (offset_to_lineno (self w) !! offset) as [lineno|]; [|done].
      cbn [ret]. unfold bind at 1.
      rewrite latest_value_of_run, (known_touch_id _ _ Hk) by done.
      by destruct (latest_value _).
    + unfold bind at 1, get_self at 1. unfold bind at 1.
      unfold lineno_of, bind at 1, get_self at 1.
      rewrite touch_offset_to_lineno, touch_filename.
      by destruct (offset_to_lineno (self w) !! offset).
  - unfold bind at 1. unfold bind at 1, get_self at 1. unfold bind at 1.
    unfold lineno_of, bind at 1, get_self at 1.
    by destruct (offset_to_lineno (self w) !! offset).
Qed.

(** [log_initial_value_events], case by case. *)
Lemma log_initial_value_events_run w target ignored name_exist offset live_value :
  frame_inv w ->
  log_initial_value_events target ignored name_exist offset live_value w =
  if ignored || negb name_exist then (Ok tt, w)
  else if known w target then (Ok tt, w)
  else
    match offset_to_lineno (self w) !! offset with
    | None => (Raise KeyError, touch target w)
    | Some lineno =>
        add_new (InitialValue target live_value lineno (filename (self w)))
          (touch target w)
    end.
Proof.
  intros Hinv. unfold log_initial_value_events.
  destruct ignored; [done|]. destruct name_exist; [|done]. cbn [orb negb].
  unfold bind at 1. unfold bind at 1. rewrite knows_run by done.
  destruct (known w target) eqn:Hk; cbn [ret negb].
  - by rewrite (known_touch_id _ _ Hk).
  - unfold bind at 1. unfold lineno_of, bind at 1, get_self at 1.
    rewrite touch_offset_to_lineno.
    destruct (offset_to_lineno (self w) !! offset) as [lineno|]; [|done].
    cbn [ret]. unfold bind at 1, get_self at 1. by rewrite touch_filename.
Qed.


(** ** The methods as sequences of elementary changes *)

Lemma known_grow w ext name :
  frame_inv w -> known (mkWorld (heap w ++ ext) (self w)) name = known w name.
Proof.
  intros Hinv. unfold known, timeline. cbn [self heap]. fold (timeline w name).
  destruct (last (timeline w name)) as [l|] eqn:Hlast; [|done].
  by rewrite event_at_app
    by (apply (inv_events w Hinv name), last_Some_elem_of, Hlast).
Qed.

Lemma step_inv C w w' : frame_inv w -> step C w w' -> frame_inv w'.
Proof.
  intros Hinv Hstep. revert Hinv.
  destruct Hstep as [name w0|w0 ext|w0 event e He _]; intros Hinv.
  - by apply frame_inv_touch.
  - by apply frame_inv_extend.
  - apply frame_inv_appended; [done|]. by rewrite He.
Qed.

Lemma evolves_alloc C o : evolves C (alloc o).
Proof. intros w Hinv. apply rtc_once. apply (step_grow C w [o]). Qed.

Lemma evolves_knows C name : evolves C (_knows name).
Proof.
  intros w Hinv. rewrite knows_run by done. apply rtc_once, step_touch.
Qed.

Lemma evolves_latest_value_of C name : evolves C (_latest_value_of name).
Proof.
  intros w Hinv. rewrite latest_value_of_state by done.
  apply rtc_once, step_touch.
Qed.

Lemma evolves_accumulated_events C : evolves C accumulated_events.
Proof.
  intros w Hinv. destruct (accumulated_events_run w Hinv) as (ext & -> & _).
  apply rtc_once, step_grow.
Qed.

Lemma evolves_add_new_event event : evolves accepted (_add_new_event event).
Proof.
  intros w Hinv. destruct (event_at (heap w) event) as [e|] eqn:He.
  - destruct (frame_inv_latest_pointers w Hinv) as [d Hd].
    rewrite (add_new_event_run event e w d He (inv_latest w Hinv) Hd).
    case_bool_decide as Htarget; [done|].
    destruct (bool_decide _ && _) eqn:Hb; [done|].
    apply rtc_once, step_append; [done|]. split; [done|].
    intros Hiv. rewrite Hiv, andb_true_r in Hb.
    apply bool_decide_eq_false in Hb.
    destruct (timeline w (event_target e)); [done|]. by destruct Hb.
  - by rewrite add_new_event_not_event.
Qed.

(** Appending a new event object whose kind fits the state. *)
Lemma add_new_steps C e w :
  frame_inv w ->
  (event_target e <> EmptyString ->
   (is_InitialValue e = true -> timeline w (event_target e) = []) ->
   C (mkWorld (heap w ++ [OEvent e]) (self w)) e) ->
  rtc (step C) w (snd (add_new e w)).
Proof.
  intros Hinv HC. rewrite add_new_run by done. cbn zeta.
  set (wa := mkWorld (heap w ++ [OEvent e]) (self w)).
  assert (Hgrow : rtc (step C) w wa) by apply rtc_once, step_grow.
  case_bool_decide as Htarget; [done|].
  destruct (bool_decide _ && _) eqn:Hb; [done|]. cbn [snd].
  eapply rtc_r; [exact Hgrow|]. apply step_append.
  - apply event_at_lookup. subst wa. cbn [heap].
    by rewrite lookup_app_r, Nat.sub_diag.
  - apply HC; [done|]. intros Hiv. rewrite Hiv, andb_true_r in Hb.
    apply bool_decide_eq_false in Hb.
    destruct (timeline w (event_target e)); [done|]. by destruct Hb.
Qed.

Lemma log_events_steps event_info offset live_value w :
  frame_inv w ->
  rtc (step logged_event) w (snd (log_events event_info offset live_value w)).
Proof.
  intros Hinv. destruct event_info as [info|]; [|done].
  rewrite log_events_run by done. cbn zeta.
  pose proof (frame_inv_touch (ei_target info) w Hinv) as Hinvt.
  assert (Htouch : rtc (step logged_event) w (touch (ei_target info) w))
    by apply rtc_once, step_touch.
  destruct (ei_type info).
  - destruct (known w (ei_target info)) eqn:Hk.
    + destruct (offset_to_lineno (self w) !! offset); [|done].
      destruct (latest_value _); [|done].
      apply add_new_steps; [done|]. intros Htarget _. split; [done|].
      by rewrite known_grow.
    + destruct (offset_to_lineno (self w) !! offset); [|done].
      etrans; [exact Htouch|]. apply add_new_steps; [done|].
      intros Htarget _. split; [done|].
      by rewrite known_grow, touch_known.
  - destruct (offset_to_lineno (self w) !! offset); [|done].
    apply add_new_steps; [done|]. intros Htarget _. by split.
Qed.

Lemma log_initial_value_events_steps target ignored name_exist offset v w :
  frame_inv w ->
  rtc (step logged_event) w
    (snd (log_initial_value_events target ignored name_exist offset v w)).
Proof.
  intros Hinv. rewrite log_initial_value_events_run by done.
  destruct (ignored || negb name_exist); [done|].
  destruct (known w target); [done|].
  assert (Htouch : rtc (step logged_event) w (touch target w))
    by apply rtc_once, step_touch.
  destruct (offset_to_lineno (self w) !! offset); [|done].
  etrans; [exact Htouch|].
  apply add_new_steps; [by apply frame_inv_touch|].
  intros Htarget Hempty. split; [done|]. cbn [event_target] in *.
  by apply Hempty.
Qed.

Lemma logged_event_accepted w e : logged_event w e -> accepted w e.
Proof.
  intros [Htarget Hkind]. split; [done|]. by destruct e.
Qed.

Lemma step_mono (C C' : World -> Event -> Prop) w w' :
  (forall w e, C w e -> C' w e) -> step C w w' -> step C' w w'.
Proof. intros HC [| |w0 event e He Hc]; constructor; auto. Qed.

Lemma steps_mono (C C' : World -> Event -> Prop) w w' :
  (forall w e, C w e -> C' w e) -> rtc (step C) w w' -> rtc (step C') w w'.
Proof.
  intros HC. induction 1 as [|x y z Hxy _ IH]; [done|].
  eapply rtc_l; [by eapply step_mono|done].
Qed.

Lemma exec_logged_steps c w :
  frame_inv w -> is_append_call c = false ->
  rtc (step logged_event) w (exec c w).
Proof.
  intros Hinv Hc. destruct c; cbn [exec]; try done.
  - by apply evolves_knows.
  - by apply evolves_latest_value_of.
  - by apply evolves_accumulated_events.
  - by apply log_events_steps.
  - by apply log_initial_value_events_steps.
  - by apply evolves_alloc.
Qed.

Lemma exec_steps c w : frame_inv w -> rtc (step accepted) w (exec c w).
Proof.
  intros Hinv. destruct (is_append_call c) eqn:Hc.
  - destruct c; try done. by apply evolves_add_new_event.
  - eapply steps_mono; [apply logged_event_accepted|].
    by apply exec_logged_steps.
Qed.

(** An invariant of the elementary changes is an invariant of the frame. *)
Lemma steps_ind C (P : World -> Prop) w w' :
  (forall w w', frame_inv w -> P w -> step C w w' -> P w') ->
  rtc (step C) w w' -> frame_inv w -> P w -> P w'.
Proof.
  intros Hstep. induction 1 as [|x y z Hxy _ IH]; [done|].
  intros Hinv HP. apply IH; [by eapply step_inv|by eapply Hstep].
Qed.

Lemma reachable_steps_ind (P : World -> Prop) :
  (forall fname o2l h, P (Frame__init__ fname o2l h)) ->
  (forall w w', frame_inv w -> P w -> step accepted w w' -> P w') ->
  forall w, reachable w -> P w.
Proof.
  intros Hinit Hstep w. induction 1 as [fname o2l h|w c Hw IH]; [done|].
  apply reachable_inv in Hw.
  eapply steps_ind; [exact Hstep|by apply exec_steps|done|done].
Qed.

Lemma logged_reachable w : logged w -> reachable w.
Proof. induction 1; by constructor. Qed.

Lemma logged_steps_ind (P : World -> Prop) :
  (forall fname o2l h, P (Frame__init__ fname o2l h)) ->
  (forall w w', frame_inv w -> P w -> step logged_event w w' -> P w') ->
  forall w, logged w -> P w.
Proof.
  intros Hinit Hstep w. induction 1 as [fname o2l h|w c Hw IH Hc]; [done|].
  apply logged_reachable, reachable_inv in Hw.
  eapply steps_ind; [exact Hstep|by apply exec_logged_steps|done|done].
Qed.


(** ** What a successful append leaves behind *)

Lemma events_at_timeline_grow w ext name :
  frame_inv w ->
  events_at (heap w ++ ext) (timeline w name) = events_at (heap w) (timeline w name).
Proof. intros Hinv. by apply events_at_grow, timeline_valid. Qed.

Lemma events_at_appended w event e name :
  frame_inv w -> event_at (heap w) event = Some e ->
  events_at (heap (appended event (event_target e) w))
    (timeline (appended event (event_target e) w) name) =
  if decide (event_target e = name)
  then events_at (heap w) (timeline w name) ++ [e]
  else events_at (heap w) (timeline w name).
Proof.
  intros Hinv He. rewrite timeline_appended. unfold appended. cbn [heap].
  destruct (decide (event_target e = name)) as [_|_].
  - rewrite events_at_app, events_at_timeline_grow by done. f_equal.
    apply events_at_cons. rewrite event_at_app; by rewrite He.
  - by apply events_at_timeline_grow.
Qed.

(** The state after [add_new e] succeeded on [w]. *)
Lemma add_new_ok e w w' :
  frame_inv w -> add_new e w = (Ok tt, w') ->
  event_target e <> EmptyString /\
  (is_InitialValue e = true -> timeline w (event_target e) = []) /\
  appends w w' e /\
  (forall name,
     events_at (heap w') (timeline w' name) =
     if decide (event_target e = name)
     then events_at (heap w) (timeline w name) ++ [e]
     else events_at (heap w) (timeline w name)) /\
  offset_to_lineno (self w') = offset_to_lineno (self w) /\
  filename (self w') = filename (self w) /\
  snapshots (self w') = snapshots (self w) ++ [S (S (length (heap w)))].
Proof.
  intros Hinv. rewrite add_new_run by done. cbn zeta.
  set (wa := mkWorld (heap w ++ [OEvent e]) (self w)).
  assert (Hinva : frame_inv wa) by (by apply frame_inv_extend).
  assert (Hnew : event_at (heap wa) (length (heap w)) = Some e).
  { apply event_at_lookup. subst wa. cbn [heap].
    by rewrite lookup_app_r, Nat.sub_diag. }
  case_bool_decide as Htarget; [done|].
  destruct (bool_decide _ && _) eqn:Hb; [done|]. intros [= <-].
  split; [done|]. split.
  { intros Hiv. rewrite Hiv, andb_true_r in Hb.
    apply bool_decide_eq_false in Hb.
    destruct (timeline w (event_target e)); [done|]. by destruct Hb. }
  split; [|split; [|split; [|split]]].
  - exists (length (heap w)). split; [by apply lookup_ge_None|].
    split; [|split].
    + unfold appended. cbn [heap]. rewrite event_at_app; by rewrite Hnew.
    + by rewrite timeline_appended, decide_True.
    + intros name Hne. by rewrite timeline_appended, decide_False.
  - intros name. rewrite (events_at_appended wa _ e name Hinva Hnew).
    subst wa. unfold timeline. cbn [heap self]. fold (timeline w name).
    by rewrite events_at_timeline_grow.
  - done.
  - done.
  - unfold appended. cbn [self snapshots heap]. subst wa. cbn [heap self].
    rewrite length_app. cbn [length]. by rewrite Nat.add_1_r.
Qed.

Lemma add_new_ok_iff e w :
  frame_inv w ->
  event_target e <> EmptyString ->
  (is_InitialValue e = true -> timeline w (event_target e) = []) ->
  exists w', add_new e w = (Ok tt, w').
Proof.
  intros Hinv Htarget Hiv. rewrite add_new_run by done. cbn zeta.
  rewrite bool_decide_false by done.
  destruct (is_InitialValue e) eqn:He.
  - rewrite (Hiv eq_refl). eauto.
  - rewrite andb_false_r. eauto.
Qed.

(** The state after [add_new e] raised: one more object, the same frame. *)
Lemma add_new_raise e w exc w' :
  add_new e w = (Raise exc, w') -> frame_inv w ->
  exc = AssertionError /\ w' = mkWorld (heap w ++ [OEvent e]) (self w).
Proof.
  intros Hrun Hinv. rewrite add_new_run in Hrun by done. cbn zeta in Hrun.
  case_bool_decide; [by injection Hrun as <- <-|].
  destruct (bool_decide _ && _); [by injection Hrun as <- <-|done].
Qed.


(** ** Invariants of the events of a timeline *)

Lemma step_timeline_events C (Q : string -> list Event -> Prop) w w' :
  (forall w e, frame_inv w -> C w e ->
     Q (event_target e) (events_at (heap w) (timeline w (event_target e))) ->
     Q (event_target e)
       (events_at (heap w) (timeline w (event_target e)) ++ [e])) ->
  frame_inv w ->
  (forall name, Q name (events_at (heap w) (timeline w name))) ->
  step C w w' ->
  forall name, Q name (events_at (heap w') (timeline w' name)).
Proof.
  intros Happend Hinv HQ Hstep. revert Hinv HQ.
  destruct Hstep as [n w0|w0 ext|w0 event e He Hc]; intros Hinv HQ name.
  - rewrite touch_heap, touch_timeline. apply HQ.
  - unfold timeline. cbn [heap self]. fold (timeline w0 name).
    rewrite events_at_timeline_grow by done. apply HQ.
  - rewrite events_at_appended by done.
    destruct (decide (event_target e = name)) as [<-|_]; [|apply HQ].
    by apply Happend.
Qed.

Lemma init_timeline fname o2l h name :
  timeline (Frame__init__ fname o2l h) name = [].
Proof. done. Qed.

Lemma reachable_timeline_events (Q : string -> list Event -> Prop) :
  (forall name, Q name []) ->
  (forall w e, frame_inv w -> accepted w e ->
     Q (event_target e) (events_at (heap w) (timeline w (event_target e))) ->
     Q (event_target e)
       (events_at (heap w) (timeline w (event_target e)) ++ [e])) ->
  forall w, reachable w ->
  forall name, Q name (events_at (heap w) (timeline w name)).
Proof.
  intros Hnil Happend.
  apply (reachable_steps_ind
           (fun w => forall name, Q name (events_at (heap w) (timeline w name)))).
  - intros fname o2l h name. rewrite init_timeline. apply Hnil.
  - intros w w' Hinv HQ Hstep. by eapply step_timeline_events.
Qed.

Lemma logged_timeline_events (Q : string -> list Event -> Prop) :
  (forall name, Q name []) ->
  (forall w e, frame_inv w -> logged_event w e ->
     Q (event_target e) (events_at (heap w) (timeline w (event_target e))) ->
     Q (event_target e)
       (events_at (heap w) (timeline w (event_target e)) ++ [e])) ->
  forall w, logged w ->
  forall name, Q name (events_at (heap w) (timeline w name)).
Proof.
  intros Hnil Happend.
  apply (logged_steps_ind
           (fun w => forall name, Q name (events_at (heap w) (timeline w name)))).
  - intros fname o2l h name. rewrite init_timeline. apply Hnil.
  - intros w w' Hinv HQ Hstep. by eapply step_timeline_events.
Qed.

(** The event at position [i] of a timeline, as a value. *)
Lemma timeline_lookup_event w name i l e :
  frame_inv w ->
  timeline w name !! i = Some l -> event_at (heap w) l = Some e ->
  events_at (heap w) (timeline w name) !! i = Some e.
Proof.
  intros Hinv Hl He.
  pose proof (events_at_Forall2 _ _ (timeline_valid w name Hinv)) as Hall.
  destruct (Forall2_lookup_l _ _ _ _ _ Hall Hl) as (e' & He' & Heq).
  congruence.
Qed.

Lemma reachable_targets w name :
  reachable w ->
  Forall (fun e => event_target e = name /\ name <> EmptyString)
    (events_at (heap w) (timeline w name)).
Proof.
  intros Hw. revert name.
  apply (reachable_timeline_events
           (fun name es =>
              Forall (fun e => event_target e = name /\ name <> EmptyString) es));
    [by constructor| |done].
  intros w0 e _ [Htarget _] Hes. apply Forall_app. split; [done|].
  by apply Forall_singleton.
Qed.

Lemma reachable_empty_name w : reachable w -> timeline w EmptyString = [].
Proof.
  intros Hw. pose proof (reachable_targets w EmptyString Hw) as Hall.
  apply (events_at_nil_inv (heap w)).
  - by apply timeline_valid, reachable_inv.
  - destruct (events_at (heap w) (timeline w EmptyString)) as [|e es]; [done|].
    apply Forall_cons in Hall as [[_ Hne] _]. done.
Qed.

(** X1.  In a reachable state every event of a timeline has the name of
    the timeline as its target, and that name is not empty. *)
Theorem events_filed_under_target w name i l e :
  reachable w ->
  timeline w name !! i = Some l ->
  event_at (heap w) l = Some e ->
  event_target e = name /\ name <> EmptyString.
Proof.
  intros Hw Hl He.
  pose proof (timeline_lookup_event w name i l e (reachable_inv w Hw) Hl He)
    as Hi.
  apply (proj1 (Forall_lookup _ _) (reachable_targets w name Hw) i e Hi).
Qed.

(** X2.  In a reachable state an InitialValue is the first event of its
    timeline: it is never recorded for an identifier that has an event. *)
Theorem initial_value_is_first w name i l e :
  reachable w ->
  timeline w name !! i = Some l ->
  event_at (heap w) l = Some e ->
  is_InitialValue e = true ->
  i = 0.
Proof.
  intros Hw Hl He Hiv.
  pose proof (timeline_lookup_event w name i l e (reachable_inv w Hw) Hl He)
    as Hi.
  clear Hl He l. revert name i e Hi Hiv.
  apply (reachable_timeline_events
           (fun name es => forall i e,
              es !! i = Some e -> is_InitialValue e = true -> i = 0));
    [done| |done].
  intros w0 e0 _ [_ Hfirst] IH i e Hi Hiv.
  apply lookup_app_Some in Hi as [Hi|[Hlen Hi]]; [by eapply IH|].
  apply list_lookup_singleton_Some in Hi as [Hi <-].
  rewrite (Hfirst Hiv) in Hi. cbn in Hi. lia.
Qed.


(** ** Reading and logging after a deletion *)

Lemma latest_value_after_recreation es t f l t' v s f' l' :
  latest_value (es ++ [Deletion t f l; Creation t' v s f' l']) =
  Raise AssertionError.
Proof.
  unfold latest_value.
  replace (es ++ [Deletion t f l; Creation t' v s f' l'])
    with ((es ++ [Deletion t f l]) ++ [Creation t' v s f' l'])
    by (by rewrite <- app_assoc).
  rewrite last_snoc. cbn [is_Deletion]. rewrite <- app_assoc. cbn [app].
  destruct es as [|e0 rest]; [done|]. cbn [app].
  destruct e0; try done; rewrite forallb_app; cbn [forallb is_Mutation];
    by rewrite andb_false_r.
Qed.

(** X3.  For an identifier whose most recent event is a Deletion,
    [_latest_value_of] raises AttributeError, as for an identifier that was
    never recorded, and the state is unchanged. *)
Theorem latest_value_of_after_deletion_raises w name l e :
  reachable w ->
  last (timeline w name) = Some l ->
  event_at (heap w) l = Some e ->
  is_Deletion e = true ->
  _latest_value_of name w = (Raise AttributeError, w).
Proof.
  intros Hinv%reachable_inv Hlast He Hdel.
  rewrite latest_value_of_run by done.
  rewrite touch_nonempty by (intros Hnil; by rewrite Hnil in Hlast).
  f_equal. unfold latest_value.
  rewrite (events_at_last _ _ (timeline_valid w name Hinv)), Hlast.
  cbn [mbind option_bind]. by rewrite He, Hdel.
Qed.

Lemma add_new_result e w :
  frame_inv w ->
  fst (add_new e w) = Ok tt ->
  add_new e w = (Ok tt, snd (add_new e w)).
Proof.
  intros _ Hok. destruct (add_new e w) as [[[]|exc] w']; by cbn in *.
Qed.

(** The three calls of [log_events] that delete an identifier, assign to it
    again, and assign once more. *)
Lemma log_deletion_ok w x s o n v :
  frame_inv w -> x <> EmptyString ->
  offset_to_lineno (self w) !! o = Some n ->
  exists w',
    log_events (Some (mkEventInfo ETDeletion x s)) o v w = (Ok tt, w') /\
    add_new (Deletion x (filename (self w)) n) w = (Ok tt, w').
Proof.
  intros Hinv Hx Ho. rewrite log_events_run by done.
  cbn [ei_type ei_target ei_sources]. rewrite Ho.
  destruct (add_new_ok_iff (Deletion x (filename (self w)) n) w) as [w' Hw'];
    [done|done|done|]. eauto.
Qed.

(** Delete, then create again, from the line numbers of the two
    instructions: the deletion and the assignment are recorded, the
    identifier is known again, and no further assignment to it can be
    logged. *)
Lemma log_events_recreation_run w x o1 o2 n1 n2 s1 s2 v1 v2 :
  reachable w ->
  x <> EmptyString ->
  offset_to_lineno (self w) !! o1 = Some n1 ->
  offset_to_lineno (self w) !! o2 = Some n2 ->
  let deletion := log_events (Some (mkEventInfo ETDeletion x s1)) o1 v1 w in
  let creation :=
    log_events (Some (mkEventInfo ETMutation x s2)) o2 v2 (snd deletion) in
  fst deletion = Ok tt /\
  fst creation = Ok tt /\
  fst (_knows x (snd creation)) = Ok true /\
  forall s3 o3 v3,
    log_events (Some (mkEventInfo ETMutation x s3)) o3 v3 (snd creation) =
      (Raise match offset_to_lineno (self w) !! o3 with
             | Some _ => AssertionError
             | None => KeyError
             end, snd creation).
Proof.
  intros Hw Hx Ho1 Ho2 deletion creation.
  pose proof (reachable_inv w Hw) as Hinv.
  assert (Hw1 : reachable (snd deletion))
    by apply (reachable_call w (call_log_events _ o1 v1) Hw).
  assert (Hw2 : reachable (snd creation))
    by apply (reachable_call _ (call_log_events _ o2 v2) Hw1).
  pose proof (reachable_inv _ Hw1) as Hinv1.
  pose proof (reachable_inv _ Hw2) as Hinv2.
  destruct (log_deletion_ok w x s1 o1 n1 v1 Hinv Hx Ho1) as (w1 & Hrun1 & Hadd1).
  subst creation deletion. rewrite Hrun1 in *. cbn [fst snd] in *.
  destruct (add_new_ok _ _ _ Hinv Hadd1)
    as (_ & _ & _ & Hev1 & Ho & Hf1 & _).
  specialize (Hev1 x). cbn [event_target] in Hev1.
  rewrite decide_True in Hev1 by done.
  assert (Hk1 : known w1 x = false).
  { rewrite known_events, Hev1, last_snoc by done. done. }
  assert (Hne1 : timeline w1 x <> []).
  { intros Hnil. rewrite Hnil in Hev1. by destruct (events_at (heap w) _). }
  assert (Hrun2 : log_events (Some (mkEventInfo ETMutation x s2)) o2 v2 w1 =
                  add_new (Creation x v2 s2 (filename (self w1)) n2) w1).
  { rewrite log_events_run by done. cbn [ei_type ei_target ei_sources].
    by rewrite Hk1, Ho, Ho2, (touch_nonempty _ _ Hne1). }
  rewrite Hrun2 in *.
  destruct (add_new_ok_iff (Creation x v2 s2 (filename (self w1)) n2) w1)
    as [w2 Hadd2]; [done|done|done|].
  rewrite Hadd2 in *. cbn [fst snd] in *.
  destruct (add_new_ok _ _ _ Hinv1 Hadd2)
    as (_ & _ & _ & Hev2 & Ho' & _ & _).
  specialize (Hev2 x). cbn [event_target] in Hev2.
  rewrite decide_True, Hev1, <- app_assoc in Hev2 by done. cbn [app] in Hev2.
  assert (Hk2 : known w2 x = true).
  { rewrite known_events by done. rewrite Hev2.
    replace (events_at (heap w) (timeline w x) ++
             [Deletion x (filename (self w)) n1;
              Creation x v2 s2 (filename (self w1)) n2])
      with ((events_at (heap w) (timeline w x) ++
             [Deletion x (filename (self w)) n1]) ++
            [Creation x v2 s2 (filename (self w1)) n2])
      by (by rewrite <- app_assoc).
    by rewrite last_snoc. }
  split; [done|]. split; [done|]. split.
  - by rewrite knows_run, Hk2.
  - intros s3 o3 v3. rewrite log_events_run by done.
    cbn [ei_type ei_target ei_sources]. rewrite Hk2, Ho', Ho.
    destruct (offset_to_lineno (self w) !! o3) as [n3|]; [|done].
    by rewrite Hev2, latest_value_after_recreation.
Qed.

(** A deletion that [log_events] recorded had a non-empty target and an
    instruction with a line number. *)
Lemma log_deletion_inv w x s o v :
  frame_inv w ->
  fst (log_events (Some (mkEventInfo ETDeletion x s)) o v w) = Ok tt ->
  x <> EmptyString /\ exists n, offset_to_lineno (self w) !! o = Some n.
Proof.
  intros Hinv. rewrite log_events_run by done.
  cbn [ei_type ei_target ei_sources].
  destruct (offset_to_lineno (self w) !! o) as [n|]; [|done].
  intros Hok. apply add_new_result in Hok; [|done].
  destruct (add_new_ok _ _ _ Hinv Hok) as (Hx & _). eauto.
Qed.

(** An assignment that [log_events] recorded had an instruction with a line
    number. *)
Lemma log_assignment_inv w x s o v :
  frame_inv w ->
  fst (log_events (Some (mkEventInfo ETMutation x s)) o v w) = Ok tt ->
  exists n, offset_to_lineno (self w) !! o = Some n.
Proof.
  intros Hinv. rewrite log_events_run by done.
  cbn [ei_type ei_target ei_sources].
  destruct (offset_to_lineno (self w) !! o) as [n|]; [eauto|].
  by destruct (known w x).
Qed.

(** X4.  Delete, then create again: when [log_events] has recorded a
    deletion of [x] and, directly after it, an assignment to [x] (both
    calls returned), the identifier is known, and every assignment to [x]
    reported next makes [log_events] raise, with the state unchanged:
    AssertionError when the offset of the instruction is in
    [offset_to_lineno], KeyError when it is not. *)
Theorem log_events_after_recreation_raises w x o1 o2 s1 s2 v1 v2 :
  reachable w ->
  let deletion := log_events (Some (mkEventInfo ETDeletion x s1)) o1 v1 w in
  let creation :=
    log_events (Some (mkEventInfo ETMutation x s2)) o2 v2 (snd deletion) in
  fst deletion = Ok tt ->
  fst creation = Ok tt ->
  fst (_knows x (snd creation)) = Ok true /\
  forall s3 o3 v3,
    log_events (Some (mkEventInfo ETMutation x s3)) o3 v3 (snd creation) =
      (Raise match offset_to_lineno (self w) !! o3 with
             | Some _ => AssertionError
             | None => KeyError
             end, snd creation).
Proof.
  intros Hw deletion creation Hok1 Hok2.
  pose proof (reachable_inv w Hw) as Hinv.
  assert (Hw1 : reachable (snd deletion))
    by apply (reachable_call w (call_log_events _ o1 v1) Hw).
  pose proof (reachable_inv _ Hw1) as Hinv1.
  destruct (log_deletion_inv w x s1 o1 v1 Hinv Hok1) as (Hx & n1 & Ho1).
  destruct (log_assignment_inv _ x s2 o2 v2 Hinv1 Hok2) as (n2 & Ho2).
  assert (Ho : offset_to_lineno (self (snd deletion)) = offset_to_lineno (self w)).
  { destruct (log_deletion_ok w x s1 o1 n1 v1 Hinv Hx Ho1) as (w1 & Hrun1 & Hadd1).
    subst deletion. rewrite Hrun1. cbn [snd].
    by destruct (add_new_ok _ _ _ Hinv Hadd1) as (_ & _ & _ & _ & Ho & _). }
  rewrite Ho in Ho2.
  destruct (log_events_recreation_run w x o1 o2 n1 n2 s1 s2 v1 v2 Hw Hx Ho1 Ho2)
    as (_ & _ & Hknows & Hnext).
  by split.
Qed.


(** ** Logging an assignment and reading it back *)

(** X5.  With a codec for which applying [diff old new] to [old] gives
    [new]: when [log_events] records an assignment to an identifier that has
    no event yet or is known, [_latest_value_of] then returns the assigned
    value. *)
Theorem log_events_then_latest_value w target sources offset live_value :
  reachable w ->
  (forall old new, apply_delta old (diff old new) = new) ->
  timeline w target = [] \/ fst (_knows target w) = Ok true ->
  let run :=
    log_events (Some (mkEventInfo ETMutation target sources)) offset live_value w in
  fst run = Ok tt ->
  fst (_latest_value_of target (snd run)) = Ok live_value.
Proof.
  intros Hw Hcodec Hstate run Hok.
  pose proof (reachable_inv w Hw) as Hinv.
  assert (Hinv' : frame_inv (snd run))
    by apply reachable_inv, (reachable_call w (call_log_events _ offset live_value) Hw).
  rewrite latest_value_of_run by done. cbn [fst]. revert Hok Hinv'.
  subst run. rewrite log_events_run by done.
  cbn [ei_type ei_target ei_sources]. rewrite knows_run in Hstate by done.
  cbn [fst] in Hstate.
  destruct (known w target) eqn:Hk.
  - destruct (offset_to_lineno (self w) !! offset) as [lineno|]; [|done].
    destruct (latest_value _) as [old|exc] eqn:Hold; [|done].
    intros Hok _. apply add_new_result in Hok; [|done].
    destruct (add_new_ok _ _ _ Hinv Hok) as (_ & _ & _ & Hev & _).
    specialize (Hev target). cbn [event_target] in Hev.
    rewrite decide_True in Hev by done. rewrite Hev.
    by rewrite (latest_value_snoc_mutation _ old), Hcodec.
  - destruct Hstate as [Hnil|[=]].
    destruct (offset_to_lineno (self w) !! offset) as [lineno|]; [|done].
    intros Hok _. pose proof (frame_inv_touch target w Hinv) as Hinvt.
    apply add_new_result in Hok; [|done].
    destruct (add_new_ok _ _ _ Hinvt Hok) as (_ & _ & _ & Hev & _).
    specialize (Hev target). cbn [event_target] in Hev.
    rewrite decide_True in Hev by done. rewrite Hev.
    by rewrite touch_timeline, Hnil.
Qed.

(** The state when a logging method raised before or in the append: new
    objects at most, and the log and the index as they were. *)
Lemma add_new_raise_state e w :
  frame_inv w ->
  fst (add_new e w) <> Ok tt ->
  fst (add_new e w) = Raise AssertionError /\
  snapshots (self (snd (add_new e w))) = snapshots (self w) /\
  forall name, timeline (snd (add_new e w)) name = timeline w name.
Proof.
  intros Hinv Hfail. destruct (add_new e w) as [[[]|exc] w'] eqn:Hrun; [done|].
  destruct (add_new_raise _ _ _ _ Hrun Hinv) as [-> ->]. done.
Qed.

(** X6.  When the offset of the instruction is not in [offset_to_lineno],
    [log_events] raises KeyError for every reported change, and the store,
    the timelines and the snapshots are as before. *)
Theorem log_events_unknown_offset w info offset live_value :
  reachable w ->
  offset_to_lineno (self w) !! offset = None ->
  let run := log_events (Some info) offset live_value w in
  fst run = Raise KeyError /\
  heap (snd run) = heap w /\
  snapshots (self (snd run)) = snapshots (self w) /\
  forall name, timeline (snd run) name = timeline w name.
Proof.
  intros Hinv%reachable_inv Hoffset run. subst run.
  rewrite log_events_run by done. cbn zeta. rewrite Hoffset.
  destruct (ei_type info); [|done].
  destruct (known w (ei_target info)); [done|]. cbn [fst snd].
  rewrite touch_heap, touch_snapshots. repeat split; try done.
  intros name. apply touch_timeline.
Qed.

(** X7.  For a change whose target is the empty string, [log_events]
    raises, and no event and no snapshot is recorded: it raises KeyError
    when the offset of the instruction is not in [offset_to_lineno], and
    AssertionError when it is. *)
Theorem log_events_empty_target w info offset live_value :
  reachable w ->
  ei_target info = EmptyString ->
  let run := log_events (Some info) offset live_value w in
  fst run = Raise match offset_to_lineno (self w) !! offset with
                  | Some _ => AssertionError
                  | None => KeyError
                  end /\
  snapshots (self (snd run)) = snapshots (self w) /\
  forall name, timeline (snd run) name = timeline w name.
Proof.
  intros Hw Htarget run. pose proof (reachable_inv w Hw) as Hinv.
  assert (Hknown : known w EmptyString = false).
  { unfold known. by rewrite (reachable_empty_name w Hw). }
  subst run. rewrite log_events_run by done. cbn zeta.
  rewrite Htarget, Hknown.
  pose proof (frame_inv_touch EmptyString w Hinv) as Hinvt.
  destruct (offset_to_lineno (self w) !! offset) as [lineno|].
  - destruct (ei_type info).
    + destruct (add_new_raise_state
                  (Creation EmptyString live_value (ei_sources info)
                     (filename (self w)) lineno) (touch EmptyString w) Hinvt)
        as (Hraise & Hsn & Htl).
      { rewrite add_new_run by done. cbn zeta. by rewrite bool_decide_true. }
      rewrite Hraise, Hsn, touch_snapshots. repeat split; try done.
      intros name. by rewrite Htl, touch_timeline.
    + destruct (add_new_raise_state
                  (Deletion EmptyString (filename (self w)) lineno) w Hinv)
        as (Hraise & Hsn & Htl); [|done].
      rewrite add_new_run by done. cbn zeta. by rewrite bool_decide_true.
  - destruct (ei_type info); [|done]. cbn [fst snd].
    rewrite touch_snapshots. repeat split; try done.
    intros name. apply touch_timeline.
Qed.


(** ** [log_initial_value_events] *)

(** X8.  [log_initial_value_events] returns without any change of state
    when the name is ignored (bound to a Tracer, or a builtin), when it does
    not exist in the traced frame, or when the frame knows it. *)
Theorem log_initial_value_events_skips w target ignored name_exist offset v :
  reachable w ->
  ignored = true \/ name_exist = false \/ fst (_knows target w) = Ok true ->
  log_initial_value_events target ignored name_exist offset v w = (Ok tt, w).
Proof.
  intros Hinv%reachable_inv Hskip.
  rewrite log_initial_value_events_run by done.
  rewrite knows_run in Hskip by done. cbn [fst] in Hskip.
  destruct Hskip as [->|[->|[= ->]]]; try done.
  - by rewrite orb_true_r.
  - by destruct (ignored || negb name_exist).
Qed.

(** X9.  For a non-empty name that exists in the traced frame, is not
    ignored and has no event yet.  When the offset of the instruction is in
    [offset_to_lineno], [log_initial_value_events] appends an InitialValue
    with the value found in the frame and the line of the offset;
    afterwards the name is known and [_latest_value_of] returns that value.
    When the offset is not in [offset_to_lineno], it raises KeyError, and no
    event and no snapshot is recorded. *)
Theorem log_initial_value_events_records w target offset v :
  reachable w ->
  target <> EmptyString ->
  timeline w target = [] ->
  let run := log_initial_value_events target false true offset v w in
  match offset_to_lineno (self w) !! offset with
  | Some lineno =>
      fst run = Ok tt /\
      appends w (snd run) (InitialValue target v lineno (filename (self w))) /\
      fst (_knows target (snd run)) = Ok true /\
      fst (_latest_value_of target (snd run)) = Ok v
  | None =>
      fst run = Raise KeyError /\
      snapshots (self (snd run)) = snapshots (self w) /\
      forall name, timeline (snd run) name = timeline w name
  end.
Proof.
  intros Hw Htarget Hnil run. pose proof (reachable_inv w Hw) as Hinv.
  assert (Hinv' : frame_inv (snd run)).
  { apply reachable_inv.
    apply (reachable_call w
             (call_log_initial_value_events target false true offset v) Hw). }
  revert Hinv'. subst run.
  rewrite log_initial_value_events_run by done. cbn [orb negb].
  assert (known w target = false) as -> by (unfold known; by rewrite Hnil).
  destruct (offset_to_lineno (self w) !! offset) as [lineno|].
  - pose proof (frame_inv_touch target w Hinv) as Hinvt.
    destruct (add_new_ok_iff (InitialValue target v lineno (filename (self w)))
                (touch target w)) as [w' Hrun]; [done|done| |].
    { intros _. by rewrite touch_timeline. }
    rewrite Hrun. cbn [fst snd]. intros Hinv'.
    destruct (add_new_ok _ _ _ Hinvt Hrun) as (_ & _ & Happ & Hev & _).
    specialize (Hev target). cbn [event_target] in Hev.
    rewrite decide_True, touch_timeline, Hnil in Hev by done. cbn in Hev.
    split; [done|]. split; [by eapply appends_touch|].
    rewrite knows_run, latest_value_of_run, known_events, Hev by done. done.
  - intros _. cbn [fst snd]. rewrite touch_snapshots. repeat split; try done.
    intros name. apply touch_timeline.
Qed.

(** X10.  For a name whose most recent event is a Deletion,
    [log_initial_value_events] records nothing, no event and no snapshot.
    It returns at once when the name is ignored or does not exist in the
    traced frame.  Otherwise it raises: KeyError when the offset of the
    instruction is not in [offset_to_lineno], and AssertionError when it
    is, the InitialValue being refused. *)
Theorem log_initial_value_events_after_deletion
    w target ignored name_exist offset v l e :
  reachable w ->
  last (timeline w target) = Some l ->
  event_at (heap w) l = Some e ->
  is_Deletion e = true ->
  let run := log_initial_value_events target ignored name_exist offset v w in
  fst run =
    (if ignored || negb name_exist then Ok tt
     else Raise match offset_to_lineno (self w) !! offset with
                | Some _ => AssertionError
                | None => KeyError
                end) /\
  snapshots (self (snd run)) = snapshots (self w) /\
  forall name, timeline (snd run) name = timeline w name.
Proof.
  intros Hinv%reachable_inv Hlast He Hdel run. subst run.
  assert (Hne : timeline w target <> [])
    by (intros Hnil; by rewrite Hnil in Hlast).
  rewrite log_initial_value_events_run by done.
  destruct (ignored || negb name_exist); [done|].
  assert (known w target = false) as ->.
  { unfold known. by rewrite Hlast, He, Hdel. }
  rewrite (touch_nonempty _ _ Hne).
  destruct (offset_to_lineno (self w) !! offset) as [lineno|]; [|done].
  apply add_new_raise_state; [done|].
  rewrite add_new_run by done. cbn zeta. cbn [event_target is_InitialValue].
  case_bool_decide; [done|]. by rewrite bool_decide_true.
Qed.

(** X11.  [log_initial_value_events] records a name once: when a call
    returned, the same call made again returns without any change of
    state. *)
Theorem log_initial_value_events_once w target ignored name_exist offset v :
  reachable w ->
  let run := log_initial_value_events target ignored name_exist offset v w in
  fst run = Ok tt ->
  log_initial_value_events target ignored name_exist offset v (snd run) =
    (Ok tt, snd run).
Proof.
  intros Hw run Hok. pose proof (reachable_inv w Hw) as Hinv.
  assert (Hinv' : frame_inv (snd run)).
  { apply reachable_inv.
    apply (reachable_call w
             (call_log_initial_value_events target ignored name_exist offset v)
             Hw). }
  rewrite (log_initial_value_events_run (snd run)) by done.
  revert Hok Hinv'. subst run.
  rewrite log_initial_value_events_run by done.
  destruct (ignored || negb name_exist); [done|].
  destruct (known w target) eqn:Hk; [cbn [fst snd]; by rewrite Hk|].
  destruct (offset_to_lineno (self w) !! offset) as [lineno|]; [|done].
  intros Hok Hinv'. pose proof (frame_inv_touch target w Hinv) as Hinvt.
  apply add_new_result in Hok; [|done].
  destruct (add_new_ok _ _ _ Hinvt Hok) as (_ & _ & _ & Hev & _).
  specialize (Hev target). cbn [event_target] in Hev.
  rewrite decide_True in Hev by done.
  by rewrite known_events, Hev, last_snoc.
Qed.

(** ** The membership test *)



(** ** The snapshot index *)

Lemma snapshot_pointers_le w i k : forall s s' d d' name,
  frame_inv w ->
  snapshots (self w) !! i = Some s ->
  snapshots (self w) !! (i + k) = Some s' ->
  pointers_at (heap w) s = Some d ->
  pointers_at (heap w) s' = Some d' ->
  (pointer d name <= pointer d' name)%Z.
Proof.
  induction k as [|k IH]; intros s s' d d' name Hinv Hs Hs' Hd Hd'.
  - rewrite Nat.add_0_r in Hs'. assert (s' = s) as -> by congruence.
    assert (d' = d) as -> by congruence. lia.
  - replace (i + S k) with (S (i + k)) in Hs' by lia.
    destruct (lookup_lt_is_Some_2 (snapshots (self w)) (i + k)) as [s1 Hs1].
    { apply lookup_lt_Some in Hs'. lia. }
    destruct (inv_snapshots w Hinv s1 (list_elem_of_lookup_2 _ _ _ Hs1))
      as [d1 Hd1].
    specialize (IH s s1 d d1 name Hinv Hs Hs1 Hd Hd1).
    destruct (inv_step w Hinv (i + k) s1 s' d1 d' Hs1 Hs' Hd1 Hd')
      as (changed & Hchanged & Hothers).
    destruct (decide (name = changed)) as [->|Hne].
    + lia.
    + rewrite (Hothers name Hne). lia.
Qed.

(** X13.  In a reachable state the snapshots are ordered in time: for
    every identifier the pointer of a later snapshot is at least the pointer
    of an earlier one, and every pointer lies between the sentinel -1 and
    the index of the identifier's most recent event. *)
Theorem snapshots_monotone w i j s s' d d' name :
  reachable w ->
  i <= j ->
  snapshots (self w) !! i = Some s ->
  snapshots (self w) !! j = Some s' ->
  pointers_at (heap w) s = Some d ->
  pointers_at (heap w) s' = Some d' ->
  (-1 <= pointer d name)%Z /\
  (pointer d name <= pointer d' name)%Z /\
  (pointer d' name <= Z.of_nat (length (timeline w name)) - 1)%Z.
Proof.
  intros Hinv%reachable_inv Hij Hs Hs' Hd Hd'.
  destruct (inv_seed w Hinv) as (s0 & d0 & Hs0 & Hd0 & Hseed).
  destruct (frame_inv_latest_pointers w Hinv) as [dl Hdl].
  pose proof (inv_latest w Hinv) as Hlast. rewrite last_lookup in Hlast.
  pose proof (lookup_lt_Some _ _ _ Hs') as Hj.
  split; [|split].
  - rewrite <- (Hseed name).
    by apply (snapshot_pointers_le w 0 i s0 s d0 d name).
  - replace j with (i + (j - i)) in Hs' by lia.
    by apply (snapshot_pointers_le w i (j - i) s s' d d' name).
  - rewrite <- (inv_pointer w Hinv dl name Hdl).
    replace (pred (length (snapshots (self w))))
      with (j + (pred (length (snapshots (self w))) - j)) in Hlast by lia.
    by apply (snapshot_pointers_le w j
                (pred (length (snapshots (self w))) - j)
                s' (_latest_snapshot (self w)) d' dl name).
Qed.

Lemma snapshot_in_store w s :
  frame_inv w -> s ∈ snapshots (self w) ->
  exists sn,
    heap w !! s = Some (OSnapshot sn) /\
    s < length (heap w) /\ events_pointer sn < length (heap w).
Proof.
  intros Hinv Hs.
  destruct (inv_snapshots w Hinv s Hs) as [d (sn & Hsn & Hd)%pointers_at_lookup].
  exists sn. split; [done|]. split; by eapply lookup_lt_Some.
Qed.

(** X14.  In a reachable state no two entries of [snapshots] are the same
    Snapshot object, and no two Snapshots share their pointer dictionary. *)
Theorem snapshots_not_aliased w i j s s' sn sn' :
  reachable w ->
  snapshots (self w) !! i = Some s ->
  snapshots (self w) !! j = Some s' ->
  heap w !! s = Some (OSnapshot sn) ->
  heap w !! s' = Some (OSnapshot sn') ->
  s = s' \/ events_pointer sn = events_pointer sn' ->
  i = j.
Proof.
  intros Hw. revert i j s s' sn sn'.
  apply (reachable_steps_ind (fun w => forall i j s s' sn sn',
    snapshots (self w) !! i = Some s ->
    snapshots (self w) !! j = Some s' ->
    heap w !! s = Some (OSnapshot sn) ->
    heap w !! s' = Some (OSnapshot sn') ->
    s = s' \/ events_pointer sn = events_pointer sn' ->
    i = j)); [| |exact Hw].
  - intros fname o2l h i j s s' sn sn' Hi Hj _ _ _.
    unfold Frame__init__ in *. cbn [self snapshots] in *.
    apply lookup_lt_Some in Hi, Hj. cbn in *. lia.
  - intros w0 w' Hinv IH Hstep. revert Hinv IH.
    destruct Hstep as [name w0|w0 ext|w0 event e He _]; intros Hinv IH.
    + intros i j s s' sn sn'. rewrite touch_snapshots, touch_heap. apply IH.
    + intros i j s s' sn sn' Hi Hj. cbn [self heap].
      destruct (snapshot_in_store w0 s Hinv (list_elem_of_lookup_2 _ _ _ Hi))
        as (sn0 & Hsn0 & Hlt & _).
      destruct (snapshot_in_store w0 s' Hinv (list_elem_of_lookup_2 _ _ _ Hj))
        as (sn0' & Hsn0' & Hlt' & _).
      rewrite !lookup_app_l by done. by apply IH.
    + intros i j s s' sn sn'. unfold appended. cbn [self heap snapshots].
      set (p := length (heap w0)).
      assert (Hold : forall k a an,
        k < length (snapshots (self w0)) ->
        (snapshots (self w0) ++ [S p]) !! k = Some a ->
        (heap w0 ++ [ODefaultDict (<[event_target e :=
            (pointer (default ∅ (pointers_at (heap w0)
               (_latest_snapshot (self w0)))) (event_target e) + 1)%Z]>
            (default ∅ (pointers_at (heap w0) (_latest_snapshot (self w0)))));
          OSnapshot (Snapshot__init__ p)]) !! a = Some (OSnapshot an) ->
        snapshots (self w0) !! k = Some a /\
        heap w0 !! a = Some (OSnapshot an) /\ a < p /\ events_pointer an < p).
      { intros k a an Hk Ha Han. rewrite lookup_app_l in Ha by done.
        destruct (snapshot_in_store w0 a Hinv (list_elem_of_lookup_2 _ _ _ Ha))
          as (an0 & Han0 & Hlt & Hdict).
        rewrite lookup_app_l in Han by done.
        assert (an0 = an) as -> by congruence. done. }
      assert (Hnew : forall k a an,
        ~ k < length (snapshots (self w0)) ->
        (snapshots (self w0) ++ [S p]) !! k = Some a ->
        (heap w0 ++ [ODefaultDict (<[event_target e :=
            (pointer (default ∅ (pointers_at (heap w0)
               (_latest_snapshot (self w0)))) (event_target e) + 1)%Z]>
            (default ∅ (pointers_at (heap w0) (_latest_snapshot (self w0)))));
          OSnapshot (Snapshot__init__ p)]) !! a = Some (OSnapshot an) ->
        k = length (snapshots (self w0)) /\ a = S p /\ events_pointer an = p).
      { intros k a an Hk Ha Han.
        rewrite lookup_app_r in Ha by (unfold loc in *; lia).
        apply list_lookup_singleton_Some in Ha as [Hk0 <-].
        rewrite lookup_app_r in Han by (fold p; lia). fold p in Han.
        replace (S p - p) with 1 in Han by lia. cbn in Han.
        injection Han as <-. split; [unfold loc in *; lia|done]. }
      intros Hi Hj Hsn Hsn' Heq.
      destruct (decide (i < length (snapshots (self w0)))) as [Hilt|Hige];
        destruct (decide (j < length (snapshots (self w0)))) as [Hjlt|Hjge].
      * destruct (Hold i s sn Hilt Hi Hsn) as (Hi0 & Hsn0 & _).
        destruct (Hold j s' sn' Hjlt Hj Hsn') as (Hj0 & Hsn0' & _).
        by apply (IH i j s s' sn sn').
      * destruct (Hold i s sn Hilt Hi Hsn) as (_ & _ & Hs & Hd).
        destruct (Hnew j s' sn' Hjge Hj Hsn') as (_ & Hs' & Hd').
        destruct Heq; lia.
      * destruct (Hnew i s sn Hige Hi Hsn) as (_ & Hs & Hd).
        destruct (Hold j s' sn' Hjlt Hj Hsn') as (_ & _ & Hs' & Hd').
        destruct Heq; lia.
      * destruct (Hnew i s sn Hige Hi Hsn) as (-> & _).
        by destruct (Hnew j s' sn' Hjge Hj Hsn') as (-> & _).
Qed.


(** ** When the accumulated view exists *)

Lemma accumulated_timeline_ok prior raw :
  (exists out, accumulated_timeline prior raw = Ok out) <->
  mutations_have_base
    (if last prior ≫= event_value is Some _ then true else false) raw = true.
Proof.
  revert prior. induction raw as [|e rest IH]; intros prior.
  - cbn. split; eauto.
  - assert (Hkeep : forall e', is_Mutation e' = false ->
              last (prior ++ [e']) ≫= event_value = event_value e').
    { intros e' _. by rewrite last_snoc. }
    destruct e; cbn [accumulated_timeline mutations_have_base].
    + rewrite IH, Hkeep by done. done.
    + rewrite IH, Hkeep by done. done.
    + destruct (last prior) as [prev|]; cbn [mbind option_bind].
      2:{ split; [by intros [out [=]]|done]. }
      destruct (event_value prev) as [pv|].
      2:{ split; [by intros [out [=]]|done]. }
      rewrite IH, last_snoc. done.
    + rewrite IH, Hkeep by done. done.
Qed.

Lemma accumulated_timeline_raise prior raw exc :
  accumulated_timeline prior raw = Raise exc ->
  exc = IndexError \/ exc = AttributeError.
Proof.
  revert prior. induction raw as [|e rest IH]; intros prior; [done|].
  destruct e; cbn [accumulated_timeline]; try apply IH.
  destruct (last prior) as [prev|]; [|intros [= <-]; by left].
  destruct (event_value prev); [apply IH|intros [= <-]; by right].
Qed.

Lemma accumulated_timeline_length prior raw out :
  accumulated_timeline prior raw = Ok out ->
  length out = length prior + length raw.
Proof.
  revert prior. induction raw as [|e rest IH]; intros prior.
  - intros [= <-]. cbn. lia.
  - assert (Hstep : forall e', accumulated_timeline (prior ++ [e']) rest = Ok out ->
              length out = length prior + length (e :: rest)).
    { intros e' Hrest. rewrite (IH _ Hrest), length_app. cbn. lia. }
    destruct e; cbn [accumulated_timeline]; try apply Hstep.
    destruct (last prior) as [prev|]; [|done].
    destruct (event_value prev); [apply Hstep|done].
Qed.

Lemma accumulated_view_ok log :
  (exists view, accumulated_view log = Ok view) <->
  Forall (fun item : string * list Event =>
            mutations_have_base false (snd item) = true) log.
Proof.
  induction log as [|[name raw] log IH]; cbn [accumulated_view].
  - split; [by constructor|eauto].
  - rewrite Forall_cons, <- IH. cbn [snd].
    rewrite <- (accumulated_timeline_ok [] raw).
    destruct (accumulated_timeline [] raw) as [acc|exc].
    + destruct (accumulated_view log) as [view|exc].
      * split; eauto.
      * split; [by intros [? [=]]|by intros [_ [? [=]]]].
    + split; [by intros [? [=]]|by intros [[? [=]] _]].
Qed.

Lemma accumulated_view_raise log exc :
  accumulated_view log = Raise exc ->
  exc = IndexError \/ exc = AttributeError.
Proof.
  induction log as [|[name raw] log IH]; cbn [accumulated_view]; [done|].
  destruct (accumulated_timeline [] raw) as [acc|exc0] eqn:Hacc.
  - destruct (accumulated_view log) as [view|exc1]; [done|].
    intros [= <-]. by apply IH.
  - intros [= <-]. by eapply accumulated_timeline_raise.
Qed.

Lemma log_has_base w :
  frame_inv w ->
  Forall (fun item : string * list Event =>
            mutations_have_base false (snd item) = true)
    (events_of (heap w) (raw_events (self w))) <->
  forall name,
    mutations_have_base false (events_at (heap w) (timeline w name)) = true.
Proof.
  intros Hinv. unfold events_of. rewrite Forall_fmap. split.
  - intros Hall name. unfold timeline.
    destruct (dict_get (raw_events (self w)) name) as [raw|] eqn:Hget; [|done].
    apply dict_get_Some_elem_of in Hget.
    apply (proj1 (Forall_forall _ _) Hall _ Hget).
  - intros Hall. apply Forall_forall. intros [name raw] Hin. cbn.
    specialize (Hall name). unfold timeline in Hall.
    by rewrite (dict_get_elem_of _ _ _ (inv_keys w Hinv) Hin) in Hall.
Qed.

Lemma accumulated_events_ok w :
  frame_inv w ->
  (exists res, fst (accumulated_events w) = Ok res) <->
  forall name,
    mutations_have_base false (events_at (heap w) (timeline w name)) = true.
Proof.
  intros Hinv. rewrite <- (log_has_base w Hinv), <- accumulated_view_ok.
  destruct (accumulated_events_run w Hinv) as (ext & _ & Hres).
  destruct (accumulated_view _) as [view|exc].
  - destruct Hres as (res & -> & _). split; eauto.
  - rewrite Hres. split; by intros [? [=]].
Qed.

(** X16.  In a reachable state [accumulated_events] returns a view exactly
    when, in every timeline, each Mutation comes right after an event that
    carries a value, so neither first nor right after a Deletion.
    Otherwise it raises IndexError or AttributeError. *)
Theorem accumulated_events_ok_iff w :
  reachable w ->
  ((exists res, fst (accumulated_events w) = Ok res) <->
   forall name,
     mutations_have_base false (events_at (heap w) (timeline w name)) = true) /\
  forall exc,
    fst (accumulated_events w) = Raise exc ->
    exc = IndexError \/ exc = AttributeError.
Proof.
  intros Hinv%reachable_inv. split; [by apply accumulated_events_ok|].
  intros exc Hraise.
  destruct (accumulated_events_run w Hinv) as (ext & _ & Hres).
  destruct (accumulated_view _) as [view|exc0] eqn:Hview.
  - destruct Hres as (res & Hok & _). congruence.
  - rewrite Hres in Hraise. injection Hraise as <-.
    by eapply accumulated_view_raise.
Qed.

Lemma mutations_have_base_snoc b es e :
  mutations_have_base b (es ++ [e]) =
  mutations_have_base b es &&
  (if is_Mutation e
   then match last es with
        | Some p => negb (is_Deletion p)
        | None => b
        end
   else true).
Proof.
  revert b. induction es as [|a rest IH]; intros b.
  - destruct e; cbn; by rewrite ?andb_true_r.
  - assert (Hlast : forall b', b' = negb (is_Deletion a) ->
              match last (a :: rest) with
              | Some p => negb (is_Deletion p)
              | None => b
              end =
              match last rest with
              | Some p => negb (is_Deletion p)
              | None => b'
              end).
    { intros b' ->. rewrite last_cons. by destruct (last rest). }
    destruct a; cbn [app mutations_have_base];
      rewrite IH, (Hlast _ eq_refl), ?andb_assoc; done.
Qed.

(** X17.  When events are only appended by [log_events] and
    [log_initial_value_events], [accumulated_events] never raises. *)
Theorem logged_accumulated_events_ok w :
  logged w -> exists res, fst (accumulated_events w) = Ok res.
Proof.
  intros Hw. apply accumulated_events_ok.
  { by apply reachable_inv, logged_reachable. }
  revert w Hw.
  apply (logged_timeline_events
           (fun _ es => mutations_have_base false es = true)); [done|].
  intros w e Hinv [_ Hkind] Hes.
  rewrite mutations_have_base_snoc, Hes. cbn [andb].
  destruct e as [| |t fn ln d s v|]; try done.
  cbn [is_Mutation event_target] in *.
  rewrite known_events in Hkind by done.
  by destruct (last (events_at (heap w) (timeline w t))).
Qed.


(** ** The shape of the accumulated view *)

Lemma accumulated_view_keys log view :
  accumulated_view log = Ok view ->
  map fst view =
  map fst (filter (fun item : string * list Event => length (snd item) <> 0) log).
Proof.
  revert view. induction log as [|[name raw] log IH]; intros view;
    cbn [accumulated_view].
  - by intros [= <-].
  - destruct (accumulated_timeline [] raw) as [acc|exc]; [|done].
    destruct (accumulated_view log) as [view'|exc]; [|done].
    intros [= <-]. rewrite filter_cons. cbn [snd].
    destruct raw as [|e raw]; cbn [length].
    + rewrite decide_False by (intros Hne; by apply Hne). by apply IH.
    + rewrite decide_True by done. cbn [map fst]. f_equal. by apply IH.
Qed.

Lemma events_of_keys h items :
  Forall (fun item : string * list loc =>
            Forall (fun l => is_Some (event_at h l)) (snd item)) items ->
  map fst (filter (fun item : string * list Event => length (snd item) <> 0)
             (events_of h items)) =
  map fst (filter (fun item : string * list loc => length (snd item) <> 0) items).
Proof.
  induction 1 as [|[name raw] items Hraw _ IH]; [done|].
  unfold events_of in *. cbn [map fst snd] in *. rewrite !filter_cons.
  cbn [snd]. rewrite (events_at_length _ _ Hraw).
  destruct (decide (length raw <> 0)); cbn [map fst]; by rewrite IH.
Qed.

Lemma events_of_fst h d : map fst (events_of h d) = map fst d.
Proof. unfold events_of. rewrite map_map. by apply map_ext. Qed.

Lemma accumulated_events_key_list w res :
  frame_inv w ->
  fst (accumulated_events w) = Ok res ->
  map fst res =
  map fst (filter (fun item : string * list loc => length (snd item) <> 0)
             (raw_events (self w))).
Proof.
  intros Hinv Hres.
  destruct (result_view_run w Hinv) as (ext & _ & Hview & _).
  rewrite Hres in Hview. cbn [result_view] in Hview. symmetry in Hview.
  apply accumulated_view_keys in Hview.
  by rewrite events_of_fst, (events_of_keys _ _ (frame_inv_items_valid w Hinv))
    in Hview.
Qed.

Lemma accumulated_events_entry w res name out :
  frame_inv w ->
  fst (accumulated_events w) = Ok res ->
  dict_get res name = Some out ->
  accumulated_timeline [] (events_at (heap w) (timeline w name)) =
    Ok (events_at (heap (snd (accumulated_events w))) out) /\
  Forall2 (copy_or_same (heap w)) (timeline w name) out.
Proof.
  intros Hinv Hres Hget.
  destruct (result_view_run w Hinv) as (ext & Hstate & _ & Hentries).
  rewrite Hstate. cbn [heap].
  apply dict_get_Some_elem_of in Hget.
  destruct (proj1 (Forall_forall _ _) (Hentries res Hres) _ Hget)
    as (raw & Hin & Hacc & Hcopies). cbn [fst snd] in *.
  assert (timeline w name = raw) as ->; [|done].
  unfold timeline. by rewrite (dict_get_elem_of _ _ _ (inv_keys w Hinv) Hin).
Qed.

(** X15.  The view that [accumulated_events] returns has one entry for
    each identifier with at least one event, in the order of [raw_events],
    and none for a name that is only bound to an empty list; each entry has
    as many events as the timeline it stands for. *)
Theorem accumulated_events_keys w res :
  reachable w ->
  fst (accumulated_events w) = Ok res ->
  map fst res =
    map fst (filter (fun item : string * list loc => length (snd item) <> 0)
               (raw_events (self w))) /\
  forall name out,
    dict_get res name = Some out -> length out = length (timeline w name).
Proof.
  intros Hinv%reachable_inv Hres. split.
  - by apply accumulated_events_key_list.
  - intros name out Hget.
    destruct (accumulated_events_entry w res name out Hinv Hres Hget)
      as [_ Hcopies].
    symmetry. by eapply Forall2_length.
Qed.

Lemma accumulated_mutations prior p pv muts :
  last prior = Some p -> event_value p = Some pv ->
  forallb is_Mutation muts = true ->
  exists out e,
    accumulated_timeline prior muts = Ok out /\
    last out = Some e /\
    event_value e =
      Some (fold_left apply_delta (omap event_delta muts) pv).
Proof.
  revert prior p pv. induction muts as [|m muts IH]; intros prior p pv Hp Hpv Hall.
  - exists prior, p. done.
  - cbn [forallb] in Hall. apply andb_true_iff in Hall as [Hm Hall].
    destruct m as [| |t fn ln d s v|]; try done.
    cbn [accumulated_timeline omap list_omap event_delta fold_left].
    rewrite Hp, Hpv. apply (IH _ (Mutation t fn ln d s (Some (apply_delta pv d)))).
    + apply last_snoc.
    + done.
    + done.
Qed.

Lemma latest_value_accumulated es v :
  latest_value es = Ok v ->
  exists out e,
    accumulated_timeline [] es = Ok out /\
    last out = Some e /\ event_value e = Some v.
Proof.
  unfold latest_value. destruct (last es) as [e|]; [|done].
  destruct (is_Deletion e); [done|].
  destruct es as [|e0 rest]; [done|].
  destruct e0 as [t v0 ln fn|t v0 s fn ln| |]; try done;
    (destruct (forallb is_Mutation rest) eqn:Hall; [|done]); intros [= <-];
    cbn [accumulated_timeline app];
    by eapply accumulated_mutations.
Qed.

Lemma omap_length_le {A B} (f : A -> option B) l :
  length (omap f l) <= length l.
Proof.
  induction l as [|x l IH]; [done|]. cbn [omap list_omap length].
  destruct (f x); cbn [length]; lia.
Qed.

Lemma omap_length_valid {A B} (f : A -> option B) l :
  length (omap f l) = length l -> Forall (fun x => is_Some (f x)) l.
Proof.
  induction l as [|x l IH]; [by constructor|].
  cbn [omap list_omap length]. pose proof (omap_length_le f l) as Hle.
  destruct (f x) as [y|] eqn:Hx; cbn [length]; intros Hlen; [|lia].
  constructor; [by rewrite Hx|]. apply IH. lia.
Qed.

(** X18.  The two reconstructions agree: when [_latest_value_of] returns a
    value for an identifier and [accumulated_events] returns a view, the
    last entry of the identifier in the view carries that value. *)
Theorem accumulated_events_last_value w res name v :
  reachable w ->
  fst (accumulated_events w) = Ok res ->
  fst (_latest_value_of name w) = Ok v ->
  exists out l e,
    dict_get res name = Some out /\
    last out = Some l /\
    event_at (heap (snd (accumulated_events w))) l = Some e /\
    event_value e = Some v.
Proof.
  intros Hinv%reachable_inv Hres Hlatest.
  rewrite latest_value_of_run in Hlatest by done. cbn [fst] in Hlatest.
  destruct (latest_value_accumulated _ _ Hlatest) as (es & e & Hacc & Hlast & Hv).
  assert (Hne : timeline w name <> []).
  { intros Hnil. rewrite Hnil in Hlatest. done. }
  assert (Hkey : name ∈ map fst res).
  { rewrite (accumulated_events_key_list w res Hinv Hres).
    apply list_elem_of_fmap. exists (name, timeline w name). split; [done|].
    apply list_elem_of_filter. split.
    - cbn [snd]. by destruct (timeline w name).
    - apply dict_get_Some_elem_of. unfold timeline in *.
      by destruct (dict_get (raw_events (self w)) name). }
  destruct (dict_get res name) as [out|] eqn:Hget.
  2:{ by apply dict_get_None_keys in Hget. }
  destruct (accumulated_events_entry w res name out Hinv Hres Hget)
    as [Hout Hcopies].
  rewrite Hacc in Hout. injection Hout as Hout.
  assert (Hvalid : Forall (fun l =>
            is_Some (event_at (heap (snd (accumulated_events w))) l)) out).
  { apply omap_length_valid. fold (events_at (heap (snd (accumulated_events w))) out).
    rewrite <- Hout, (accumulated_timeline_length _ _ _ Hacc).
    rewrite (events_at_length _ _ (timeline_valid w name Hinv)).
    cbn [length]. by rewrite (Forall2_length _ _ _ Hcopies). }
  rewrite Hout, (events_at_last _ _ Hvalid) in Hlast.
  destruct (last out) as [l|] eqn:Hl; [|done].
  cbn [mbind option_bind] in Hlast. exists out, l, e. done.
Qed.

End Further.

(** * The further properties, checked on the scenarios *)

Section FurtherChecks.

#[local] Existing Instance StringCodec.


Lemma string_codec_round_trip (old new : string) :
  apply_delta old (diff old new) = new.
Proof. cbn. by case_decide. Qed.

Lemma reachable_with_initial_x : reachable with_initial_x.
Proof. apply reachable_call, reachable_init. Qed.

Lemma reachable_deleted : reachable deleted.
Proof. do 2 apply reachable_call. apply reachable_init. Qed.

Lemma logged_swap_frame : logged swap_frame.
Proof. repeat (apply logged_call; [|reflexivity]). apply logged_init. Qed.

(** The Mutation of [x] in the swap scenario is filed under [x]. *)
Lemma events_filed_under_target_witness :
  reachable swap_frame /\
  timeline swap_frame "x" !! 1 = Some 8 /\
  event_at (heap swap_frame) 8 = Some mutation_x /\
  event_target mutation_x = "x"%string /\ "x"%string <> EmptyString.
Proof.
  assert (Hl : timeline swap_frame "x" !! 1 = Some 8) by (by vm_compute).
  assert (He : event_at (heap swap_frame) 8 = Some mutation_x) by (by vm_compute).
  split; [apply reachable_swap_frame|]. split; [exact Hl|]. split; [exact He|].
  apply (events_filed_under_target (H := StringCodec) swap_frame "x" 1 8
           mutation_x reachable_swap_frame Hl He).
Defined.

(** The InitialValue of [x] is at position 0. *)
Lemma initial_value_is_first_witness :
  reachable with_initial_x /\
  timeline with_initial_x "x" !! 0 = Some 2 /\
  event_at (heap with_initial_x) 2 =
    Some (InitialValue "x" "foo"%string 1 "swap.py") /\
  0 = 0.
Proof.
  assert (Hl : timeline with_initial_x "x" !! 0 = Some 2) by (by vm_compute).
  assert (He : event_at (heap with_initial_x) 2 =
               Some (InitialValue "x" "foo"%string 1 "swap.py"))
    by (by vm_compute).
  split; [apply reachable_with_initial_x|]. split; [exact Hl|].
  split; [exact He|].
  apply (initial_value_is_first (H := StringCodec) with_initial_x "x" 0 2 _
           reachable_with_initial_x Hl He eq_refl).
Defined.

(** After [del x], the latest value of [x] cannot be read. *)
Lemma latest_value_of_after_deletion_raises_witness :
  reachable deleted /\
  last (timeline deleted "x") = Some 5 /\
  event_at (heap deleted) 5 = Some (Deletion "x" "swap.py" 2) /\
  _latest_value_of "x" deleted = (Raise AttributeError, deleted).
Proof.
  assert (Hl : last (timeline deleted "x") = Some 5) by (by vm_compute).
  assert (He : event_at (heap deleted) 5 = Some (Deletion "x" "swap.py" 2))
    by (by vm_compute).
  split; [apply reachable_deleted|]. split; [exact Hl|]. split; [exact He|].
  apply (latest_value_of_after_deletion_raises (H := StringCodec) deleted "x" 5 _
           reachable_deleted Hl He eq_refl).
Defined.

(** [x = "foo"], [del x], [x = "bar"], and then [x = "baz"] fails. *)
Lemma log_events_after_recreation_raises_witness :
  reachable swap1 /\
  fst (log_events (Some (mkEventInfo ETDeletion "x" ∅)) 6 "foo" swap1) = Ok tt /\
  fst (log_events (Some (mkEventInfo ETMutation "x" ∅)) 14 "bar" deleted) = Ok tt /\
  fst (_knows "x" recreated) = Ok true /\
  log_events (Some (mkEventInfo ETMutation "x" ∅)) 16 "baz" recreated =
    (Raise AssertionError, recreated) /\
  log_events (Some (mkEventInfo ETMutation "x" ∅)) 99 "baz" recreated =
    (Raise KeyError, recreated).
Proof.
  assert (Hw : reachable swap1) by apply reachable_call, reachable_init.
  assert (Hok1 : fst (log_events (Some (mkEventInfo ETDeletion "x" ∅)) 6 "foo"
                        swap1) = Ok tt) by (by vm_compute).
  assert (Hok2 : fst (log_events (Some (mkEventInfo ETMutation "x" ∅)) 14 "bar"
                        deleted) = Ok tt) by (by vm_compute).
  split; [exact Hw|]. split; [exact Hok1|]. split; [exact Hok2|].
  destruct (log_events_after_recreation_raises (H := StringCodec) swap1 "x"
              6 14 ∅ ∅ "foo"%string "bar"%string Hw Hok1 Hok2)
    as [Hknows Hnext].
  split; [exact Hknows|].
  split; [exact (Hnext ∅ 16%Z "baz"%string)|exact (Hnext ∅ 99%Z "baz"%string)].
Defined.

(** The store to [x] of the swap is read back as ["bar"]. *)
Lemma log_events_then_latest_value_witness :
  reachable swap2 /\
  fst (_knows "x" swap2) = Ok true /\
  fst (log_events (Some (mkEventInfo ETMutation "x" {[ ("y", 0) ]})) 14 "bar" swap2)
    = Ok tt /\
  fst (_latest_value_of "x" swap3) = Ok "bar"%string.
Proof.
  assert (Hknows : fst (_knows "x" swap2) = Ok true) by (by vm_compute).
  assert (Hok : fst (log_events (Some (mkEventInfo ETMutation "x" {[ ("y", 0) ]}))
                       14 "bar" swap2) = Ok tt) by (by vm_compute).
  split; [apply reachable_swap2|]. split; [exact Hknows|]. split; [exact Hok|].
  apply (log_events_then_latest_value (H := StringCodec) swap2 "x" {[ ("y", 0) ]}
           14 "bar"%string reachable_swap2 string_codec_round_trip
           (or_intror Hknows) Hok).
Defined.

(** Offset 99 is not an instruction of [swap.py]. *)
Lemma log_events_unknown_offset_witness :
  reachable swap_frame /\
  offset_to_lineno (self swap_frame) !! 99%Z = None /\
  fst (log_events (Some (mkEventInfo ETDeletion "x" ∅)) 99 "foo" swap_frame) =
    Raise KeyError.
Proof.
  assert (Hoffset : offset_to_lineno (self swap_frame) !! 99%Z = None)
    by (by vm_compute).
  split; [apply reachable_swap_frame|]. split; [exact Hoffset|].
  apply (log_events_unknown_offset (H := StringCodec) swap_frame
           (mkEventInfo ETDeletion "x" ∅) 99 "foo"%string
           reachable_swap_frame Hoffset).
Defined.

(** A change without a target, at an instruction of [swap.py] and at an
    offset that is none. *)
Lemma log_events_empty_target_witness :
  reachable swap_frame /\
  fst (log_events (Some (mkEventInfo ETMutation EmptyString ∅)) 2 "foo" swap_frame) =
    Raise AssertionError /\
  fst (log_events (Some (mkEventInfo ETDeletion EmptyString ∅)) 99 "foo" swap_frame) =
    Raise KeyError.
Proof.
  split; [apply reachable_swap_frame|]. split.
  - apply (log_events_empty_target (H := StringCodec) swap_frame
             (mkEventInfo ETMutation EmptyString ∅) 2 "foo"%string
             reachable_swap_frame eq_refl).
  - apply (log_events_empty_target (H := StringCodec) swap_frame
             (mkEventInfo ETDeletion EmptyString ∅) 99 "foo"%string
             reachable_swap_frame eq_refl).
Defined.

(** [x] is known in the swap scenario: nothing to record. *)
Lemma log_initial_value_events_skips_witness :
  reachable swap_frame /\
  fst (_knows "x" swap_frame) = Ok true /\
  log_initial_value_events "x" false true 2 "foo" swap_frame = (Ok tt, swap_frame).
Proof.
  assert (Hknows : fst (_knows "x" swap_frame) = Ok true) by (by vm_compute).
  split; [apply reachable_swap_frame|]. split; [exact Hknows|].
  apply (log_initial_value_events_skips (H := StringCodec) swap_frame "x"
           false true 2 "foo"%string reachable_swap_frame).
  right. right. exact Hknows.
Defined.

(** The first load of [x] in a fresh frame records its value. *)
Lemma log_initial_value_events_records_witness :
  reachable fresh_frame /\
  timeline fresh_frame "x" = [] /\
  fst (log_initial_value_events "x" false true 2 "foo" fresh_frame) = Ok tt /\
  appends fresh_frame with_initial_x (InitialValue "x" "foo"%string 1 "swap.py") /\
  fst (_knows "x" with_initial_x) = Ok true /\
  fst (_latest_value_of "x" with_initial_x) = Ok "foo"%string.
Proof.
  split; [apply reachable_fresh_frame|]. split; [reflexivity|].
  exact (log_initial_value_events_records (H := StringCodec) fresh_frame "x"
           2 "foo"%string reachable_fresh_frame ltac:(done) eq_refl).
Defined.

(** After [del x], an InitialValue for [x] is refused. *)
Lemma log_initial_value_events_after_deletion_witness :
  reachable deleted /\
  last (timeline deleted "x") = Some 5 /\
  event_at (heap deleted) 5 = Some (Deletion "x" "swap.py" 2) /\
  fst (log_initial_value_events "x" false true 14 "bar" deleted) =
    Raise AssertionError.
Proof.
  assert (Hl : last (timeline deleted "x") = Some 5) by (by vm_compute).
  assert (He : event_at (heap deleted) 5 = Some (Deletion "x" "swap.py" 2))
    by (by vm_compute).
  split; [apply reachable_deleted|]. split; [exact Hl|]. split; [exact He|].
  apply (log_initial_value_events_after_deletion (H := StringCodec) deleted "x"
           false true 14 "bar"%string 5 _ reachable_deleted Hl He eq_refl).
Defined.

Lemma log_initial_value_events_once_witness :
  reachable fresh_frame /\
  fst (log_initial_value_events "x" false true 2 "foo" fresh_frame) = Ok tt /\
  log_initial_value_events "x" false true 2 "foo" with_initial_x =
    (Ok tt, with_initial_x).
Proof.
  assert (Hok : fst (log_initial_value_events "x" false true 2 "foo" fresh_frame)
                = Ok tt) by (by vm_compute).
  split; [apply reachable_fresh_frame|]. split; [exact Hok|].
  apply (log_initial_value_events_once (H := StringCodec) fresh_frame "x"
           false true 2 "foo"%string reachable_fresh_frame Hok).
Defined.


(** The second and the fourth snapshot of the swap scenario. *)
Lemma snapshots_monotone_witness :
  reachable swap_frame /\
  1 <= 3 /\
  snapshots (self swap_frame) !! 1 = Some 4 /\
  snapshots (self swap_frame) !! 3 = Some 10 /\
  pointers_at (heap swap_frame) 4 = Some {[ "x" := 0%Z ]} /\
  pointers_at (heap swap_frame) 10 = Some {[ "x" := 1%Z; "y" := 0%Z ]} /\
  (pointer {[ "x" := 0%Z ]} "x" <= pointer {[ "x" := 1%Z; "y" := 0%Z ]} "x")%Z.
Proof.
  assert (Hi : snapshots (self swap_frame) !! 1 = Some 4) by (by vm_compute).
  assert (Hj : snapshots (self swap_frame) !! 3 = Some 10) by (by vm_compute).
  assert (Hd : pointers_at (heap swap_frame) 4 = Some {[ "x" := 0%Z ]})
    by (by vm_compute).
  assert (Hd' : pointers_at (heap swap_frame) 10 =
                Some {[ "x" := 1%Z; "y" := 0%Z ]}) by (by vm_compute).
  assert (Hij : 1 <= 3) by lia.
  split; [apply reachable_swap_frame|]. split; [exact Hij|].
  split; [exact Hi|]. split; [exact Hj|]. split; [exact Hd|]. split; [exact Hd'|].
  apply (snapshots_monotone (H := StringCodec) swap_frame 1 3 4 10 _ _ "x"
           reachable_swap_frame Hij Hi Hj Hd Hd').
Defined.

(** The seed Snapshot of the swap scenario occupies one position. *)
Lemma snapshots_not_aliased_witness :
  reachable swap_frame /\
  snapshots (self swap_frame) !! 0 = Some 1 /\
  heap swap_frame !! 1 = Some (OSnapshot (Snapshot__init__ 0)) /\
  0 = 0.
Proof.
  assert (Hi : snapshots (self swap_frame) !! 0 = Some 1) by (by vm_compute).
  assert (Hs : heap swap_frame !! 1 = Some (OSnapshot (Snapshot__init__ 0)))
    by (by vm_compute).
  split; [apply reachable_swap_frame|]. split; [exact Hi|]. split; [exact Hs|].
  apply (snapshots_not_aliased (H := StringCodec) swap_frame 0 0 1 1 _ _
           reachable_swap_frame Hi Hi Hs Hs (or_introl eq_refl)).
Defined.

Lemma accumulated_events_keys_witness :
  reachable swap_frame /\
  fst (accumulated_events swap_frame) = Ok [("x", [2; 14]); ("y", [5; 15])] /\
  map fst [("x", [2; 14]); ("y", [5; 15])] =
    map fst (filter (fun item : string * list loc => length (snd item) <> 0)
               (raw_events (self swap_frame))).
Proof.
  assert (Hres : fst (accumulated_events swap_frame) =
                 Ok [("x", [2; 14]); ("y", [5; 15])]) by (by vm_compute).
  split; [apply reachable_swap_frame|]. split; [exact Hres|].
  apply (accumulated_events_keys (H := StringCodec) swap_frame _
           reachable_swap_frame Hres).
Defined.

Lemma accumulated_events_ok_iff_witness :
  reachable swap_frame /\
  forall exc,
    fst (accumulated_events swap_frame) = Raise exc ->
    exc = IndexError \/ exc = AttributeError.
Proof.
  split; [apply reachable_swap_frame|].
  apply (accumulated_events_ok_iff (H := StringCodec) swap_frame
           reachable_swap_frame).
Defined.

Lemma logged_accumulated_events_ok_witness :
  logged swap_frame /\
  exists res, fst (accumulated_events swap_frame) = Ok res.
Proof.
  split; [apply logged_swap_frame|].
  apply (logged_accumulated_events_ok (H := StringCodec) swap_frame
           logged_swap_frame).
Defined.

Lemma accumulated_events_last_value_witness :
  reachable swap_frame /\
  fst (accumulated_events swap_frame) = Ok [("x", [2; 14]); ("y", [5; 15])] /\
  fst (_latest_value_of "x" swap_frame) = Ok "bar"%string /\
  exists out l e,
    dict_get [("x", [2; 14]); ("y", [5; 15])] "x" = Some out /\
    last out = Some l /\
    event_at (heap (snd (accumulated_events swap_frame))) l = Some e /\
    event_value e = Some "bar"%string.
Proof.
  assert (Hres : fst (accumulated_events swap_frame) =
                 Ok [("x", [2; 14]); ("y", [5; 15])]) by (by vm_compute).
  assert (Hv : fst (_latest_value_of "x" swap_frame) = Ok "bar"%string)
    by (by vm_compute).
  split; [apply reachable_swap_frame|]. split; [exact Hres|]. split; [exact Hv|].
  apply (accumulated_events_last_value (H := StringCodec) swap_frame _ "x"
           "bar"%string reachable_swap_frame Hres Hv).
Defined.

End FurtherChecks.
